(** * Method of Joints: joint-resolution engine and support reactions

    A shallow embedding of [Method_of_Joints.py] and
    [Structure_Operations.py].

    Numbers.  The Python code computes with machine numbers; here every
    scalar is an exact rational ([Q]), so rounding and overflow are outside
    the model.  A division whose divisor is zero raises, as it does in
    Python.  What overflow does to the two-unknown form is shown on a second
    embedding of that function over binary64 floats, at the end of the
    definitions.

    Objects.  Bars are shared mutable objects: a bar is referenced from the
    incidence lists of its nodes and is written through any of these
    references.  A bar reference is a [BarId]; the objects live in a store
    [heap : BarId -> Bar], and a write replaces the object at one address, so
    every alias observes it.  Object comparison ([bar != local_x_bar]) is
    comparison of references.  The store also keeps a journal of the writes
    made to [axial_load], which is what the write-once statements are about.

    Control.  [sys.exit] and Python exceptions end the run; the outcome
    carries the store as it was at that moment. *)

From Stdlib Require Import String.
From Stdlib Require Import List Bool Arith PeanoNat ZArith QArith Qabs Lia Lqa.
From Stdlib Require PrimFloat.
Import ListNotations.

Set Implicit Arguments.

(** ** Data model *)

Definition BarId := nat.
Definition Vec := (Q * Q)%type.

(** The two fields of a bar the engine reads and writes. *)
Record Bar := mkBar {
  is_computed : bool;
  axial_load : Q
}.

(** A node: [bars] is the incidence list, in its native order. *)
Record Node := mkNode {
  idx : nat;
  location : Vec;
  bars : list BarId;
  xforce_external : Q;
  yforce_external : Q;
  xforce_reaction : Q;
  yforce_reaction : Q;
  constraint : string
}.

(** Who performed a write to [axial_load]: one of the two equilibrium
    solvers, or the driver through [SetAxialLoad]. *)
Inductive Writer := BySolver | ByDriver.

(** One write to [axial_load], with what the bar held just before it. *)
Record LoadWrite := mkLoadWrite {
  lw_writer : Writer;
  lw_bar : BarId;
  lw_was_computed : bool;
  lw_old_load : Q;
  lw_new_load : Q
}.

(** The store: the bar objects and the journal of load writes, latest
    first. *)
Record Store := mkStore {
  heap : BarId -> Bar;
  journal : list LoadWrite
}.

(** Ways a run ends abnormally. *)
Inductive Exit :=
| GeometryExit (node_idx : nat)   (* "Bars at node ... are collinear" *)
| StuckExit                       (* "Stuck! No viable nodes found" *)
| ReactionsExit                   (* "A more clever way must be found" *)
| ZeroDivisionError
| IndexError.

(** ** A state-and-exit monad for the in-place code *)

Inductive Outcome (A : Type) :=
| Done (a : A) (s : Store)
| Abort (e : Exit) (s : Store).
Arguments Done {A} a s.
Arguments Abort {A} e s.

Definition M (A : Type) := Store -> Outcome A.

Definition ret {A} (a : A) : M A := fun s => Done a s.

Definition bind {A B} (m : M A) (k : A -> M B) : M B :=
  fun s => match m s with
           | Done a s' => k a s'
           | Abort e s' => Abort e s'
           end.

Definition raise {A} (e : Exit) : M A := fun s => Abort e s.

Notation "x <- m ;; k" := (bind m (fun x => k))
  (at level 61, m at next level, right associativity).
Notation "m ;;; k" := (bind m (fun _ => k))
  (at level 61, right associativity).

(** Replace the object at address [b]. *)
Definition update (h : BarId -> Bar) (b : BarId) (v : Bar) : BarId -> Bar :=
  fun b' => if Nat.eqb b' b then v else h b'.

(** [bar.axial_load = v], journalled. *)
Definition write_load (w : Writer) (b : BarId) (v : Q) : M unit :=
  fun s =>
    let old := heap s b in
    Done tt (mkStore (update (heap s) b (mkBar (is_computed old) v))
                     (mkLoadWrite w b (is_computed old) (axial_load old) v
                        :: journal s)).

(** [bar.is_computed = True]. *)
Definition mark_computed (b : BarId) : M unit :=
  fun s =>
    let old := heap s b in
    Done tt (mkStore (update (heap s) b (mkBar true (axial_load old)))
                     (journal s)).

(** [unknowns[i]]; out of range raises. *)
Definition index (l : list BarId) (i : nat) : M BarId :=
  match nth_error l i with
  | Some b => ret b
  | None => raise IndexError
  end.

(** Modelled from the spec: [Bar.SetAxialLoad(value)], a method of the bar
    class, which is not among the sources; the spec lists it next to the
    [axial_load] field it sets. *)
Definition SetAxialLoad (b : BarId) (v : Q) : M unit :=
  write_load ByDriver b v.

(** Modelled from the spec: [Node.GetNetXForce()], a method of the node
    class, which is not among the sources: the net external force, applied
    load plus reaction. *)
Definition GetNetXForce (n : Node) : Q := xforce_external n + xforce_reaction n.

(** Modelled from the spec: [Node.GetNetYForce()], as [GetNetXForce]. *)
Definition GetNetYForce (n : Node) : Q := yforce_external n + yforce_reaction n.

(** The geometry module ([Geometry_Operations]) is not among the sources;
    its three functions are an interface. *)
Class Geometry := {
  BarNodeToVector : Node -> BarId -> Vec;
  CosineVectors : Vec -> Vec -> Q;
  SineVectors : Vec -> Vec -> Q
}.

(** A bar is unknown when its flag is off. *)
Definition unknown (s : Store) (b : BarId) : bool :=
  negb (is_computed (heap s b)).

(** [x < y] on numbers. *)
Definition Qltb (x y : Q) : bool := negb (Qle_bool y x).

(** The literal [1e-9]. *)
Definition tolerance : Q := 1 # 1000000000.

(** ** Method_of_Joints.py *)

Section MethodOfJoints.

Context {geom : Geometry}.

Definition UnknownBars (node : Node) (s : Store) : list BarId :=
  fold_left
    (fun list_of_unknown_bars my_bar =>
       if Bool.eqb (is_computed (heap s my_bar)) false
       then list_of_unknown_bars ++ [my_bar]
       else list_of_unknown_bars)
    (bars node) [].

Definition NodeIsViable (node : Node) (s : Store) : bool :=
  let unknowns := UnknownBars node s in
  (1 <=? length unknowns)%nat && (length unknowns <=? 2)%nat.

(** The loop of [SumOfForcesInLocalX] over [node.bars]. *)
Definition other_bars_sum (node : Node) (local_x_bar : BarId)
    (local_x_vec : Vec) (s : Store) (start : Q) : Q :=
  fold_left
    (fun sum_forces bar =>
       if negb (Nat.eqb bar local_x_bar) then
         if is_computed (heap s bar) then
           sum_forces
           + axial_load (heap s bar)
             * CosineVectors local_x_vec (BarNodeToVector node bar)
         else sum_forces
       else sum_forces)
    (bars node) start.

(** The value of [sum_forces] when [SumOfForcesInLocalX] leaves its loop. *)
Definition local_x_sum (node : Node) (local_x_bar : BarId) (s : Store) : Q :=
  let local_x_vec := BarNodeToVector node local_x_bar in
  let sum_forces := 0 in
  let f_net_x := GetNetXForce node in
  let f_net_y := GetNetYForce node in
  let sum_forces := sum_forces + f_net_x * CosineVectors local_x_vec (1, 0) in
  let sum_forces := sum_forces + f_net_y * CosineVectors local_x_vec (0, 1) in
  other_bars_sum node local_x_bar local_x_vec s sum_forces.

Definition SumOfForcesInLocalX (node : Node) (local_x_bar : BarId) : M Q :=
  fun s =>
    let sum_forces := local_x_sum node local_x_bar s in
    (write_load BySolver local_x_bar (- sum_forces) ;;;
     mark_computed local_x_bar ;;;
     ret (- sum_forces)) s.

(** The loop of [SumOfForcesInLocalY] over [node.bars]. *)
Definition known_bars_sum (node : Node) (local_x_vec : Vec) (s : Store)
    (start : Q) : Q :=
  fold_left
    (fun sum_known_forces bar =>
       if is_computed (heap s bar) then
         sum_known_forces
         + axial_load (heap s bar)
           * SineVectors local_x_vec (BarNodeToVector node bar)
       else sum_known_forces)
    (bars node) start.

(** The value of [sum_known_forces] when [SumOfForcesInLocalY] leaves its
    loop. *)
Definition local_y_sum (node : Node) (bar_0 : BarId) (s : Store) : Q :=
  let local_x_vec := BarNodeToVector node bar_0 in
  let sum_known_forces := 0 in
  let f_net_x := GetNetXForce node in
  let f_net_y := GetNetYForce node in
  let sum_known_forces :=
    sum_known_forces + f_net_x * SineVectors local_x_vec (1, 0) in
  let sum_known_forces :=
    sum_known_forces + f_net_y * SineVectors local_x_vec (0, 1) in
  known_bars_sum node local_x_vec s sum_known_forces.

(** [sin_theta] of [SumOfForcesInLocalY]. *)
Definition sin_between (node : Node) (bar_0 bar_target : BarId) : Q :=
  SineVectors (BarNodeToVector node bar_0) (BarNodeToVector node bar_target).

Definition SumOfForcesInLocalY (node : Node) (unknown_bars : list BarId) : M Q :=
  bar_0 <- index unknown_bars 0 ;;
  bar_target <- index unknown_bars 1 ;;
  fun s =>
    let sum_known_forces := local_y_sum node bar_0 s in
    let sin_theta := sin_between node bar_0 bar_target in
    if Qltb (Qabs sin_theta) tolerance then
      Abort (GeometryExit (idx node)) s
    else if Qeq_bool sin_theta 0 then
      Abort ZeroDivisionError s
    else
      (write_load BySolver bar_target (- sum_known_forces / sin_theta) ;;;
       mark_computed bar_target ;;;
       ret (- sum_known_forces / sin_theta)) s.

(** check if any member has an unknown force *)
Fixpoint DoIhaveAnUnknownMember (nodes : list Node) (s : Store) : bool :=
  match nodes with
  | [] => false
  | node :: rest =>
      let unknown_bars := UnknownBars node s in
      if (0 <? length unknown_bars)%nat then true
      else DoIhaveAnUnknownMember rest s
  end.

(** The body of the [for node in nodes] loop; the value is whether this
    iteration set [progress_made]. *)
Definition visit (node : Node) : M bool :=
  fun s =>
    if NodeIsViable node s then
      let unknowns := UnknownBars node s in
      if (length unknowns =? 2)%nat then
        (force_2 <- SumOfForcesInLocalY node unknowns ;;
         u1 <- index unknowns 1 ;;
         SetAxialLoad u1 force_2 ;;;
         mark_computed u1 ;;;
         u0 <- index unknowns 0 ;;
         force_1 <- SumOfForcesInLocalX node u0 ;;
         SetAxialLoad u0 force_1 ;;;
         mark_computed u0 ;;;
         ret true) s
      else if (length unknowns =? 1)%nat then
        (u0 <- index unknowns 0 ;;
         force <- SumOfForcesInLocalX node u0 ;;
         SetAxialLoad u0 force ;;;
         mark_computed u0 ;;;
         ret true) s
      else ret false s
    else ret false s.

(** One pass: the [for] loop, threading [progress_made]. *)
Fixpoint scan (nodes : list Node) (progress_made : bool) : M bool :=
  match nodes with
  | [] => ret progress_made
  | node :: rest =>
      p <- visit node ;;
      scan rest (progress_made || p)
  end.

(** How the driver ends; [passes] is the pass counter. *)
Inductive Final :=
| Converged (passes : nat) (s : Store)
| TooManyIterations (passes : nat) (s : Store)
| Exited (e : Exit) (s : Store)
| OutOfFuel.

(** The [while] loop; [fuel] bounds the number of passes still allowed. *)
Fixpoint while_loop (fuel : nat) (nodes : list Node) (n_bars : nat)
    (counter : nat) (s : Store) : Final :=
  if DoIhaveAnUnknownMember nodes s then
    match fuel with
    | O => OutOfFuel
    | S fuel' =>
        match scan nodes false s with
        | Abort e s' => Exited e s'
        | Done progress_made s' =>
            if negb progress_made then Exited StuckExit s'
            else
              let counter := S counter in
              if (n_bars + 5 <? counter)%nat then TooManyIterations counter s'
              else while_loop fuel' nodes n_bars counter s'
        end
    end
  else Converged counter s.

(** The pass counter stops the loop after at most [len(bars) + 6] passes,
    which is the fuel given here; [IterateUsingMethodOfJoints_total] below
    shows it is never exhausted. *)
Definition IterateUsingMethodOfJoints (nodes : list Node) (all_bars : list BarId)
    (s : Store) : Final :=
  while_loop (length all_bars + 6) nodes (length all_bars) 0 s.

End MethodOfJoints.


(** ** Vocabulary for the statements *)

(** The store an outcome carries. *)
Definition store_of {A} (o : Outcome A) : Store :=
  match o with Done _ s => s | Abort _ s => s end.

Definition final_store (f : Final) : option Store :=
  match f with
  | Converged _ s | TooManyIterations _ s | Exited _ s => Some s
  | OutOfFuel => None
  end.

(** [s'] is [s] after [bar.axial_load = v; bar.is_computed = True] on bar
    [b], written by [w]. *)
Definition settled (w : Writer) (b : BarId) (v : Q) (s s' : Store) : Prop :=
  (forall b', heap s' b' = if Nat.eqb b' b then mkBar true v else heap s b')
  /\ journal s' =
     mkLoadWrite w b (is_computed (heap s b)) (axial_load (heap s b)) v
       :: journal s.

(** Resolved bars are frozen from [s] to [s']: flag and load are the
    same. *)
Definition frozen (s s' : Store) : Prop :=
  forall b, is_computed (heap s b) = true -> heap s' b = heap s b.

(** A journal entry that respects the write-once discipline: a solver
    writes only a bar that is not resolved; the driver only stores again the
    load the bar already holds. *)
Definition disciplined (w : LoadWrite) : Prop :=
  match lw_writer w with
  | BySolver => lw_was_computed w = false
  | ByDriver => lw_was_computed w = true /\ lw_new_load w = lw_old_load w
  end.

(** The journal of [s'] extends that of [s] by disciplined entries. *)
Definition journal_disciplined (s s' : Store) : Prop :=
  exists new, journal s' = new ++ journal s /\ Forall disciplined new.

(** The guard of [SumOfForcesInLocalY]: [abs(sin_theta) < 1e-9]. *)
Definition collinear `{Geometry} (node : Node) (bar_0 bar_target : BarId) : bool :=
  Qltb (Qabs (sin_between node bar_0 bar_target)) tolerance.

(** What one iteration of the [for] loop does at [node] in store [s], by
    cases on the unknown bars [U] of the node at that moment:
    - not one or two of them: nothing;
    - [U = [u0]]: the single-unknown form on [u0], then the driver stores the
      force in [u0];
    - [U = [u0; u1]]: the two-unknown form with axis [u0] and target [u1]
      (which exits when they are collinear), the driver stores the force in
      [u1], then the single-unknown form on [u0] in the store where [u1] is
      resolved, and the driver stores that force in [u0]. *)
Inductive visit_result `{Geometry} (node : Node) (s : Store) : Outcome bool -> Prop :=
| visit_skip :
    NodeIsViable node s = false ->
    visit_result node s (Done false s)
| visit_one u0 v s1 s2 :
    UnknownBars node s = [u0] ->
    v = - local_x_sum node u0 s ->
    settled BySolver u0 v s s1 ->
    settled ByDriver u0 v s1 s2 ->
    visit_result node s (Done true s2)
| visit_two_collinear u0 u1 :
    UnknownBars node s = [u0; u1] ->
    collinear node u0 u1 = true ->
    visit_result node s (Abort (GeometryExit (idx node)) s)
| visit_two u0 u1 v1 v0 s1 s2 s3 s4 :
    UnknownBars node s = [u0; u1] ->
    collinear node u0 u1 = false ->
    v1 = - local_y_sum node u0 s / sin_between node u0 u1 ->
    settled BySolver u1 v1 s s1 ->
    settled ByDriver u1 v1 s1 s2 ->
    v0 = - local_x_sum node u0 s2 ->
    settled BySolver u0 v0 s2 s3 ->
    settled ByDriver u0 v0 s3 s4 ->
    visit_result node s (Done true s4).

(** How many entries of the list [l] of bars are unknown in [s]. *)
Definition unknown_count (s : Store) (l : list BarId) : nat :=
  length (filter (unknown s) l).

(** ** A concrete geometry for worked examples

    Bars are straight segments between placed nodes.  The direction of a bar
    from a node points to its far end; cosine and sine of the angle from [a]
    to [b] are the dot and cross products over the product of the lengths.
    Lengths are taken with an exact rational square root, so the examples
    use bars of rational length. *)

Definition vsub (a b : Vec) : Vec := (fst a - fst b, snd a - snd b).
Definition dot (a b : Vec) : Q := fst a * fst b + snd a * snd b.
Definition cross (a b : Vec) : Q := fst a * snd b - snd a * fst b.

Definition exact_sqrt (q : Q) : Q :=
  let r := Qred q in Z.sqrt (Qnum r) # Pos.sqrt (Qden r).

Definition norm (v : Vec) : Q := exact_sqrt (dot v v).

(** Where the bars and nodes of an example are: the two end nodes of each
    bar (by node index) and the position of each node. *)
Record Layout := mkLayout {
  bar_ends : BarId -> nat * nat;
  place : nat -> Vec
}.

Definition layout_geometry (L : Layout) : Geometry := {|
  BarNodeToVector := fun node bar =>
    let (i, j) := bar_ends L bar in
    if Nat.eqb (idx node) i then vsub (place L j) (place L i)
    else vsub (place L i) (place L j);
  CosineVectors := fun a b => Qred (dot a b / (norm a * norm b));
  SineVectors := fun a b => Qred (cross a b / (norm a * norm b))
|}.

(** An unloaded, unsupported node of an example. *)
Definition free_node (L : Layout) (i : nat) (incident : list BarId) : Node :=
  mkNode i (place L i) incident 0 0 0 0 "free".

(** A loaded node of an example. *)
Definition loaded_node (L : Layout) (i : nat) (incident : list BarId)
    (fx fy : Q) : Node :=
  mkNode i (place L i) incident fx fy 0 0 "free".

(** A store in which no bar is resolved and nothing was written. *)
Definition fresh : Store := mkStore (fun _ => mkBar false 0) [].

(** ** Determinacy and stability of a truss

    These two notions are not computed by the engine; they state the
    completeness property.  Static determinacy is the count of the glossary,
    [b + r = 2j]; a pin gives two reactions and a roller one.  Kinematic
    stability is the usual one: the only small motion of the nodes that
    keeps every bar length and respects every support is no motion. *)

Definition reactions_of (n : Node) : nat :=
  if String.eqb (constraint n) "pin" then 2
  else if String.eqb (constraint n) "roller_no_xdisp" then 1
  else if String.eqb (constraint n) "roller_no_ydisp" then 1
  else 0.

Definition statically_determinate (nodes : list Node) (all_bars : list BarId)
    : Prop :=
  (length all_bars + list_sum (map reactions_of nodes) = 2 * length nodes)%nat.

(** The motion [u] keeps the length of bar [b]. *)
Definition keeps_length (L : Layout) (u : nat -> Vec) (b : BarId) : Prop :=
  let (i, j) := bar_ends L b in
  dot (vsub (u i) (u j)) (vsub (place L i) (place L j)) == 0.

(** The motion [u] respects the support at node [n]. *)
Definition respects_support (u : nat -> Vec) (n : Node) : Prop :=
  (constraint n = "pin"%string ->
     fst (u (idx n)) == 0 /\ snd (u (idx n)) == 0)
  /\ (constraint n = "roller_no_xdisp"%string -> fst (u (idx n)) == 0)
  /\ (constraint n = "roller_no_ydisp"%string -> snd (u (idx n)) == 0).

Definition kinematically_stable (L : Layout) (nodes : list Node)
    (all_bars : list BarId) : Prop :=
  forall u : nat -> Vec,
    (forall b, In b all_bars -> keeps_length L u b) ->
    (forall n, In n nodes -> respects_support u n) ->
    forall n, In n nodes -> fst (u (idx n)) == 0 /\ snd (u (idx n)) == 0.

(** ** Example: one bar hanging from one node *)

Module OneBar.
Definition layout : Layout :=
  mkLayout (fun _ => (0, 1)%nat)
           (fun i => if Nat.eqb i 0 then (0, 0) else (0, 1)).
Definition node0 : Node := loaded_node layout 0 [0%nat] 0 (-(3)).
Definition nodes : list Node := [node0].
Definition all_bars : list BarId := [0%nat].
Definition geometry : Geometry := layout_geometry layout.
End OneBar.

(** ** Example: a complex truss

    Two triangles, an outer one (nodes 0, 1, 2) and an inner one (nodes 3,
    4, 5), joined corner to corner by three bars: six nodes, nine bars, a
    pin at node 0 and a roller at node 1.  Every node carries three bars. *)

Module Prism.
Definition ends (b : BarId) : nat * nat :=
  match b with
  | 0 => (0, 1) | 1 => (1, 2) | 2 => (0, 2)
  | 3 => (3, 4) | 4 => (4, 5) | 5 => (3, 5)
  | 6 => (0, 3) | 7 => (1, 4) | _ => (2, 5)
  end%nat.
Definition position (i : nat) : Vec :=
  match i with
  | 0%nat => (0, 0) | 1%nat => (8, 0) | 2%nat => (4, 8)
  | 3%nat => (3, 2) | 4%nat => (5, 3) | _ => (4, 5)
  end.
Definition layout : Layout := mkLayout ends position.
Definition nodes : list Node :=
  [ mkNode 0 (position 0) [0; 2; 6]%nat 0 0 0 5 "pin";
    mkNode 1 (position 1) [0; 1; 7]%nat 0 0 0 5 "roller_no_ydisp";
    loaded_node layout 2 [1; 2; 8]%nat 0 (-(10));
    free_node layout 3 [3; 5; 6]%nat;
    free_node layout 4 [3; 4; 7]%nat;
    free_node layout 5 [4; 5; 8]%nat ].
Definition all_bars : list BarId := [0; 1; 2; 3; 4; 5; 6; 7; 8]%nat.
Definition geometry : Geometry := layout_geometry layout.
End Prism.


(** Every bar whose object changed from [s] to [s'] is resolved in [s'] and
    the journal of [s'] has, since [s], a write of the load it holds. *)
Definition accounted (s s' : Store) : Prop :=
  exists new, journal s' = new ++ journal s
    /\ forall b, heap s' b = heap s b
                 \/ (is_computed (heap s' b) = true
                     /\ exists w, In w new /\ lw_bar w = b
                                  /\ lw_new_load w = axial_load (heap s' b)).

(** The driver ended [Converged], after at most [len(all_bars)] passes,
    with every bar incident to a listed node resolved, every bar it changed
    holding a load that was written to it, and the bars resolved in [s]
    untouched. *)
Definition ends_converged (nodes : list Node)
    (all_bars : list BarId) (s : Store) (f : Final) : Prop :=
  exists passes s',
    f = Converged passes s'
    /\ (passes <= length all_bars)%nat
    /\ (forall n b, In n nodes -> In b (bars n) ->
                    is_computed (heap s' b) = true)
    /\ accounted s s'
    /\ frozen s s'.

(** The parts of a journal entry that tell who wrote which bar and whether
    the bar was resolved at that moment. *)
Definition who_wrote (w : LoadWrite) : Writer * BarId * bool :=
  (lw_writer w, lw_bar w, lw_was_computed w).

(** ** Example: a comb

    Six nodes in a row at [(k, 0)], numbered left to right, each joined to
    the next by a unit bar; nodes 0 to 4 also carry a vertical unit bar to a
    point above them, and node 0 a bar to the point on its left.  Node 5, the
    last one scanned, is the only node that starts with fewer than three
    unknown bars. *)

Module Comb.
Definition ends (b : BarId) : nat * nat :=
  match b with
  | 0 => (5, 4) | 1 => (4, 3) | 2 => (4, 14)
  | 3 => (3, 2) | 4 => (3, 13)
  | 5 => (2, 1) | 6 => (2, 12)
  | 7 => (1, 0) | 8 => (1, 11)
  | 9 => (0, 20) | _ => (0, 10)
  end%nat.
Definition position (i : nat) : Vec :=
  if (i <? 10)%nat then (inject_Z (Z.of_nat i), 0)
  else if (i <? 20)%nat then (inject_Z (Z.of_nat (i - 10)), 1)
  else (-(1), 0).
Definition layout : Layout := mkLayout ends position.
Definition geometry : Geometry := layout_geometry layout.
Definition node4 : Node := loaded_node layout 4 [0; 1; 2]%nat 0 0.
Definition node5 : Node := loaded_node layout 5 [0]%nat 2 0.
Definition nodes : list Node :=
  [ loaded_node layout 0 [7; 9; 10]%nat 0 0;
    loaded_node layout 1 [5; 7; 8]%nat 0 0;
    loaded_node layout 2 [3; 5; 6]%nat 0 0;
    loaded_node layout 3 [1; 3; 4]%nat 0 0;
    node4;
    node5 ].
Definition all_bars : list BarId := [0; 1; 2; 3; 4; 5; 6; 7; 8; 9; 10]%nat.
(** The store after [k] passes over the comb, from the fresh store. *)
Definition after_passes (k : nat) : Store :=
  Nat.iter k (fun s => store_of (scan (geom := geometry) nodes false s)) fresh.
End Comb.


(** The store a run of the driver ends with. *)
Definition the_store (f : Final) : Store :=
  match final_store f with Some s => s | None => fresh end.


(** ** The equilibrium sums, as the specification words them *)

Section SpecSums.

Context {geom : Geometry}.

(** The sum of the single-unknown form: the net external force projected by
    cosine on the axis of [target_bar], plus, for every other incident bar,
    its load times the cosine of its angle to that axis. *)
Definition cosine_projected_sum (node : Node) (target_bar : BarId) (s : Store)
    : Q :=
  let axis := BarNodeToVector node target_bar in
  fold_left Qplus
    (map (fun bar => axial_load (heap s bar)
                     * CosineVectors axis (BarNodeToVector node bar))
         (filter (fun bar => negb (Nat.eqb bar target_bar)) (bars node)))
    (GetNetXForce node * CosineVectors axis (1, 0)
     + GetNetYForce node * CosineVectors axis (0, 1)).

(** The sum of the two-unknown form: the net external force projected by
    sine on the axis of [bar_a], plus, for every resolved incident bar, its
    load times the sine of its angle to that axis. *)
Definition sine_projected_sum (node : Node) (bar_a : BarId) (s : Store) : Q :=
  let axis := BarNodeToVector node bar_a in
  fold_left Qplus
    (map (fun bar => axial_load (heap s bar)
                     * SineVectors axis (BarNodeToVector node bar))
         (filter (fun bar => is_computed (heap s bar)) (bars node)))
    (GetNetXForce node * SineVectors axis (1, 0)
     + GetNetYForce node * SineVectors axis (0, 1)).

End SpecSums.

(** ** Structure_Operations.py: the support reactions

    [ComputeReactions] changes node objects in place and does not touch the
    bars.  The node list is the store here: a node object is a position of
    the list, and a change to an object replaces the element at its
    position. *)

Inductive Attempt (A : Type) :=
| Returned (a : A)
| Raised (e : Exit).
Arguments Returned {A} a.
Arguments Raised {A} e.

(** Modelled from the spec: [Node.AddReactionXForce(value)], a method of
    the node class, which is not among the sources; it adds [value] to the
    reaction part of the net x-force. *)
Definition AddReactionXForce (n : Node) (v : Q) : Node :=
  mkNode (idx n) (location n) (bars n) (xforce_external n) (yforce_external n)
         (xforce_reaction n + v) (yforce_reaction n) (constraint n).

(** Modelled from the spec: [Node.AddReactionYForce(value)], as
    [AddReactionXForce]. *)
Definition AddReactionYForce (n : Node) (v : Q) : Node :=
  mkNode (idx n) (location n) (bars n) (xforce_external n) (yforce_external n)
         (xforce_reaction n) (yforce_reaction n + v) (constraint n).

(** Replace the object at position [i] by [f] of it. *)
Fixpoint update_at (i : nat) (f : Node -> Node) (l : list Node) : list Node :=
  match l, i with
  | [], _ => []
  | n :: rest, O => f n :: rest
  | n :: rest, S i' => n :: update_at i' f rest
  end.

(** What the first loop of [ComputeReactions] keeps: the last pin and the
    last roller seen (as positions) and how many of each. *)
Record Supports := mkSupports {
  pin_node : option nat;
  roller_node : option nat;
  n_pins : nat;
  n_roller : nat
}.

Definition is_pin (n : Node) : bool := String.eqb (constraint n) "pin".
Definition is_roller_no_xdisp (n : Node) : bool :=
  String.eqb (constraint n) "roller_no_xdisp".
Definition is_roller_no_ydisp (n : Node) : bool :=
  String.eqb (constraint n) "roller_no_ydisp".

(** The first loop, from position [i] on. *)
Fixpoint find_supports (nodes : list Node) (i : nat) (acc : Supports)
    : Supports :=
  match nodes with
  | [] => acc
  | node :: rest =>
      find_supports rest (S i)
        (if is_pin node then
           mkSupports (Some i) (roller_node acc) (n_pins acc + 1) (n_roller acc)
         else if is_roller_no_xdisp node then
           mkSupports (pin_node acc) (Some i) (n_pins acc) (n_roller acc + 1)
         else if is_roller_no_ydisp node then
           mkSupports (pin_node acc) (Some i) (n_pins acc) (n_roller acc + 1)
         else acc)
  end.

(** The moment loop: the sum of moments of the applied loads about the
    pin. *)
Definition moment_loop (nodes : list Node) (pin_x pin_y : Q) : Q :=
  fold_left
    (fun roller_reaction node =>
       let '(node_x, node_y) := location node in
       let roller_reaction :=
         roller_reaction + yforce_external node * (node_x - pin_x) in
       roller_reaction + xforce_external node * (pin_y - node_y))
    nodes 0.

Definition total_external_y (nodes : list Node) : Q :=
  fold_left (fun total node => total + yforce_external node) nodes 0.

Definition total_external_x (nodes : list Node) : Q :=
  fold_left (fun total node => total + xforce_external node) nodes 0.

(** [a / b], raising on a zero divisor. *)
Definition divide (a b : Q) : Attempt Q :=
  if Qeq_bool b 0 then Raised ZeroDivisionError else Returned (a / b).

Definition ComputeReactions (nodes : list Node) : Attempt (list Node) :=
  let found := find_supports nodes 0 (mkSupports None None 0 0) in
  if negb (n_pins found =? 1)%nat || negb (n_roller found =? 1)%nat then
    Raised ReactionsExit
  else
    match pin_node found, roller_node found with
    | Some pin_at, Some roller_at =>
      match nth_error nodes pin_at, nth_error nodes roller_at with
      | Some the_pin, Some the_roller =>
        let '(pin_x, pin_y) := location the_pin in
        let '(roller_x, roller_y) := location the_roller in
        let roller_reaction := moment_loop nodes pin_x pin_y in
        (* the reaction of the roller, from the moments about the pin *)
        let after_roller :=
          if is_roller_no_xdisp the_roller then
            match divide (- roller_reaction) (pin_y - roller_y) with
            | Returned r =>
                Returned (r, update_at roller_at
                               (fun n => AddReactionXForce n r) nodes)
            | Raised e => Raised e
            end
          else if is_roller_no_ydisp the_roller then
            match divide (- roller_reaction) (roller_x - pin_x) with
            | Returned r =>
                Returned (r, update_at roller_at
                               (fun n => AddReactionYForce n r) nodes)
            | Raised e => Raised e
            end
          else Returned (roller_reaction, nodes) in
        match after_roller with
        | Raised e => Raised e
        | Returned (roller_reaction, nodes1) =>
          (* sum of forces in y direction *)
          let total_y := total_external_y nodes1 in
          let total_y :=
            if is_roller_no_ydisp the_roller then total_y + roller_reaction
            else total_y in
          let pin_reaction_y := - total_y in
          let nodes2 :=
            update_at pin_at (fun n => AddReactionYForce n pin_reaction_y)
              nodes1 in
          (* sum of forces in x direction *)
          let total_x := total_external_x nodes2 in
          let total_x :=
            if is_roller_no_xdisp the_roller then total_x + roller_reaction
            else total_x in
          let pin_reaction_x := - total_x in
          Returned
            (update_at pin_at (fun n => AddReactionXForce n pin_reaction_x)
               nodes2)
        end
      | _, _ => Raised IndexError
      end
    | _, _ => Raised IndexError
    end.

(** ** Equilibrium of the whole truss *)

Fixpoint Qsum (l : list Q) : Q :=
  match l with
  | [] => 0
  | x :: rest => x + Qsum rest
  end.





Definition is_roller (n : Node) : bool :=
  is_roller_no_xdisp n || is_roller_no_ydisp n.

(** The distance between pin and roller that [ComputeReactions] divides
    by: across the roller's line of action. *)
Definition lever_arm (the_pin the_roller : Node) : Q :=
  if is_roller_no_xdisp the_roller
  then snd (location the_pin) - snd (location the_roller)
  else fst (location the_roller) - fst (location the_pin).

(** ** Example: the triangle of the specification

    Nodes 0 [(0,0)], 1 [(6,0)] and 2 [(3,4)], bars 0-1, 1-2 and 0-2, a pin
    at node 0, a roller at node 1 and a load of 12 downwards at node 2. *)

Module Triangle.
Definition ends (b : BarId) : nat * nat :=
  match b with
  | 0 => (0, 1) | 1 => (1, 2) | _ => (0, 2)
  end%nat.
Definition position (i : nat) : Vec :=
  match i with
  | 0%nat => (0, 0) | 1%nat => (6, 0) | _ => (3, 4)
  end.
Definition layout : Layout := mkLayout ends position.
Definition geometry : Geometry := layout_geometry layout.
Definition unsupported : list Node :=
  [ mkNode 0 (position 0) [0; 2]%nat 0 0 0 0 "pin";
    mkNode 1 (position 1) [0; 1]%nat 0 0 0 0 "roller_no_ydisp";
    mkNode 2 (position 2) [1; 2]%nat 0 (-(12)) 0 0 "free" ].
Definition all_bars : list BarId := [0; 1; 2]%nat.
(** The nodes once [ComputeReactions] has run. *)
Definition nodes : list Node :=
  match ComputeReactions unsupported with
  | Returned l => l
  | Raised _ => []
  end.
End Triangle.

(** ** Observations of outcomes, for the examples *)

(** How a run ended, without its store. *)
Inductive Verdict :=
| EndsConverged (passes : nat)
| EndsTooManyIterations (passes : nat)
| EndsExited (e : Exit)
| EndsOutOfFuel.

Definition verdict (f : Final) : Verdict :=
  match f with
  | Converged p _ => EndsConverged p
  | TooManyIterations p _ => EndsTooManyIterations p
  | Exited e _ => EndsExited e
  | OutOfFuel => EndsOutOfFuel
  end.

(** The value of a computation that ran to its end. *)
Definition value_of {A} (o : Outcome A) : option A :=
  match o with Done a _ => Some a | Abort _ _ => None end.

(** ** Example: a node between two collinear bars

    Node 3 of the comb layout with only its two horizontal bars, bar 1
    towards node 4 and bar 3 towards node 2. *)

Module Straight.
Definition node3 : Node := loaded_node Comb.layout 3 [1; 3]%nat 0 (-(1)).
Definition nodes : list Node := [node3].
Definition all_bars : list BarId := [1; 3]%nat.
End Straight.

(** ** Equilibrium of a node in the frame of one of its bars

    The resultant on [node] of the net external force and of the loads of
    all its bars, along the direction of the bar [axis] and across it. *)

Section LocalFrame.

Context {geom : Geometry}.

Definition force_along (node : Node) (axis : BarId) (s : Store) : Q :=
  let a := BarNodeToVector node axis in
  GetNetXForce node * CosineVectors a (1, 0)
  + GetNetYForce node * CosineVectors a (0, 1)
  + Qsum (map (fun b => axial_load (heap s b)
                        * CosineVectors a (BarNodeToVector node b))
              (bars node)).

Definition force_across (node : Node) (axis : BarId) (s : Store) : Q :=
  let a := BarNodeToVector node axis in
  GetNetXForce node * SineVectors a (1, 0)
  + GetNetYForce node * SineVectors a (0, 1)
  + Qsum (map (fun b => axial_load (heap s b)
                        * SineVectors a (BarNodeToVector node b))
              (bars node)).

End LocalFrame.

(** ** Structure_Operations.py: the determinacy check

    [StaticallyDeterminate] reads the constraint codes of a node through
    [node.ConstraintType()], a method of the node class, which is not among
    the sources: it is a parameter here, with integer codes.  The function
    either returns [True] or ends the run; its four exits are kept apart. *)

Inductive DeterminacyExit :=
| MomentReactionExit      (* "Truss cannot support a moment reaction force" *)
| InvalidConstraintExit   (* "Invalid constraint type specified" *)
| UnstableExit            (* "The truss is unstable" *)
| IndeterminateExit.      (* "The truss is statically indeterminate" *)

Inductive Checked (A : Type) :=
| Passed (a : A)
| Refused (e : DeterminacyExit).
Arguments Passed {A} a.
Arguments Refused {A} e.

(** [any(codes)]: some code is truthy, that is, not zero. *)
Definition any (codes : list Z) : bool :=
  existsb (fun c => negb (Z.eqb c 0)) codes.

(** [c in codes]. *)
Definition code_in (c : Z) (codes : list Z) : bool :=
  existsb (Z.eqb c) codes.

Section Determinacy.

Variable ConstraintType : Node -> list Z.

(** The loop that counts the reactions, from the count [n_reactions]. *)
Fixpoint count_reactions (nodes : list Node) (n_reactions : nat)
    : Checked nat :=
  match nodes with
  | [] => Passed n_reactions
  | node :: rest =>
      if any (ConstraintType node) then
        if code_in 2 (ConstraintType node) then Refused MomentReactionExit
        else if code_in (-1) (ConstraintType node) then
          Refused InvalidConstraintExit
        else
          count_reactions rest (n_reactions + length (ConstraintType node))
      else count_reactions rest n_reactions
  end.

Definition StaticallyDeterminate (nodes : list Node) (all_bars : list BarId)
    : Checked bool :=
  let n_nodes := length nodes in
  let n_bars := length all_bars in
  match count_reactions nodes 0 with
  | Refused e => Refused e
  | Passed n_reactions =>
      if (n_bars + n_reactions <? 2 * n_nodes)%nat then Refused UnstableExit
      else if (2 * n_nodes <? n_bars + n_reactions)%nat then
        Refused IndeterminateExit
      else Passed true
  end.

(** A node whose codes hold a truthy one and neither [2] nor [-1]: it is
    counted. *)
Definition node_accepted (n : Node) : bool :=
  negb (any (ConstraintType n))
  || (negb (code_in 2 (ConstraintType n))
      && negb (code_in (-1) (ConstraintType n))).

(** The reactions the loop counts at a node: the number of its codes when
    one of them is truthy, none otherwise. *)
Definition reactions_at (n : Node) : nat :=
  if any (ConstraintType n) then length (ConstraintType n) else 0%nat.

End Determinacy.

(** Codes for the examples: a pin holds two force reactions, a roller one,
    any other node none. *)
Definition example_codes (n : Node) : list Z :=
  if is_pin n then [1; 1]%Z
  else if is_roller n then [1]%Z
  else [].

(** Codes for an example of the constraint exits, by node index: node 0 is
    accepted, node 1 holds both code [2] and code [-1], any other node code
    [-1]. *)
Definition refusing_codes (n : Node) : list Z :=
  match idx n with
  | O => [1; 1]%Z
  | S O => [0; 2; -1]%Z
  | _ => [-1]%Z
  end.


(** ** The two-unknown form over machine numbers

    The embedding above computes with exact rationals.  What the code does
    when a result leaves the range of the machine numbers can only be seen
    with those numbers, so [SumOfForcesInLocalY] is embedded a second time,
    statement by statement, over IEEE binary64 floats, which Python's
    [float] is.  Only what the function reads is kept of a node: its index,
    its incidence list and its net force. *)

Import PrimFloat.
Set Warnings "-inexact-float".

Definition FloatVec := (PrimFloat.float * PrimFloat.float)%type.

Record FloatBar := mkFloatBar {
  float_is_computed : bool;
  float_axial_load : PrimFloat.float
}.

Record FloatNode := mkFloatNode {
  float_idx : nat;
  float_bars : list BarId;
  float_net_x : PrimFloat.float;   (* node.GetNetXForce() *)
  float_net_y : PrimFloat.float    (* node.GetNetYForce() *)
}.

(** The part of the geometry module the function calls. *)
Class FloatGeometry := {
  float_BarNodeToVector : FloatNode -> BarId -> FloatVec;
  float_SineVectors : FloatVec -> FloatVec -> PrimFloat.float
}.

Inductive FloatOutcome :=
| FloatDone (value : PrimFloat.float) (h : BarId -> FloatBar)
| FloatAbort (e : Exit) (h : BarId -> FloatBar).

Definition SumOfForcesInLocalY_float `{FloatGeometry} (node : FloatNode)
    (unknown_bars : list BarId) (h : BarId -> FloatBar) : FloatOutcome :=
  match nth_error unknown_bars 0, nth_error unknown_bars 1 with
  | Some bar_0, Some bar_target =>
      let local_x_vec := float_BarNodeToVector node bar_0 in
      let sum_known_forces := 0%float in
      let f_net_x := float_net_x node in
      let f_net_y := float_net_y node in
      let sum_known_forces :=
        PrimFloat.add sum_known_forces
          (PrimFloat.mul f_net_x
             (float_SineVectors local_x_vec (1%float, 0%float))) in
      let sum_known_forces :=
        PrimFloat.add sum_known_forces
          (PrimFloat.mul f_net_y
             (float_SineVectors local_x_vec (0%float, 1%float))) in
      let sum_known_forces :=
        fold_left
          (fun sum_known_forces bar =>
             if float_is_computed (h bar) then
               PrimFloat.add sum_known_forces
                 (PrimFloat.mul (float_axial_load (h bar))
                    (float_SineVectors local_x_vec
                       (float_BarNodeToVector node bar)))
             else sum_known_forces)
          (float_bars node) sum_known_forces in
      let target_vec := float_BarNodeToVector node bar_target in
      let sin_theta := float_SineVectors local_x_vec target_vec in
      if PrimFloat.ltb (PrimFloat.abs sin_theta) 1e-9%float then
        FloatAbort (GeometryExit (float_idx node)) h
      else if PrimFloat.eqb sin_theta 0%float then
        FloatAbort ZeroDivisionError h
      else
        let load := PrimFloat.div (PrimFloat.opp sum_known_forces) sin_theta in
        FloatDone load
          (fun b => if Nat.eqb b bar_target then mkFloatBar true load
                    else h b)
  | _, _ => FloatAbort IndexError h
  end.

(** ** Example: a heavily loaded corner, in machine numbers

    A node with two perpendicular bars, bar 0 along [(1, -1)] and bar 1
    along [(1, 1)], none resolved, under a net force of [1.7e308] in x and
    in y.  The sine of the angle from [a] to [b] is their cross product over
    the product of their lengths. *)

Module Corner.
Definition direction (b : BarId) : FloatVec :=
  match b with
  | O => (1%float, (-1)%float)
  | _ => (1%float, 1%float)
  end.
Definition sine (a b : FloatVec) : PrimFloat.float :=
  PrimFloat.div
    (PrimFloat.sub (PrimFloat.mul (fst a) (snd b))
                   (PrimFloat.mul (snd a) (fst b)))
    (PrimFloat.mul
       (PrimFloat.sqrt (PrimFloat.add (PrimFloat.mul (fst a) (fst a))
                                      (PrimFloat.mul (snd a) (snd a))))
       (PrimFloat.sqrt (PrimFloat.add (PrimFloat.mul (fst b) (fst b))
                                      (PrimFloat.mul (snd b) (snd b))))).
Definition geometry : FloatGeometry :=
  {| float_BarNodeToVector := fun _ b => direction b;
     float_SineVectors := sine |}.
Definition node : FloatNode :=
  mkFloatNode 0 [0; 1]%nat 1.7e308%float 1.7e308%float.
Definition unresolved : BarId -> FloatBar :=
  fun _ => mkFloatBar false 0%float.
End Corner.
(** ** Reading the store *)

Section Readers.

Context {geom : Geometry}.

Lemma UnknownBars_acc (s : Store) (l acc : list BarId) :
  fold_left
    (fun list_of_unknown_bars my_bar =>
       if Bool.eqb (is_computed (heap s my_bar)) false
       then list_of_unknown_bars ++ [my_bar]
       else list_of_unknown_bars) l acc
  = acc ++ filter (unknown s) l.
Proof.
  revert acc; induction l as [|b l IH]; intros acc; simpl.
  - now rewrite app_nil_r.
  - rewrite IH. unfold unknown at 2.
    destruct (is_computed (heap s b)); simpl; [reflexivity|].
    now rewrite <- app_assoc.
Qed.

Lemma UnknownBars_filter (node : Node) (s : Store) :
  UnknownBars node s = filter (unknown s) (bars node).
Proof. unfold UnknownBars. now rewrite UnknownBars_acc. Qed.

Lemma UnknownBars_In (node : Node) (s : Store) (b : BarId) :
  In b (UnknownBars node s) <-> In b (bars node) /\ is_computed (heap s b) = false.
Proof.
  rewrite UnknownBars_filter, filter_In. unfold unknown.
  destruct (is_computed (heap s b)); simpl; intuition congruence.
Qed.

Lemma DoIhaveAnUnknownMember_false (nodes : list Node) (s : Store) :
  DoIhaveAnUnknownMember nodes s = false <->
  forall node, In node nodes -> UnknownBars node s = [].
Proof.
  induction nodes as [|n nodes IH]; simpl.
  - split; [intros _ ? []|reflexivity].
  - destruct (UnknownBars n s) as [|b l] eqn:E; simpl.
    + rewrite IH. split.
      * intros H node [<-|Hin]; auto.
      * intros H node Hin; apply H; auto.
    + split; [discriminate|].
      intros H. specialize (H n (or_introl eq_refl)). congruence.
Qed.

Lemma DoIhaveAnUnknownMember_true (nodes : list Node) (s : Store) :
  DoIhaveAnUnknownMember nodes s = true <->
  exists node b, In node nodes /\ In b (bars node)
                 /\ is_computed (heap s b) = false.
Proof.
  split.
  - intros H.
    induction nodes as [|n nodes IH]; simpl in H; [discriminate|].
    destruct (UnknownBars n s) as [|b l] eqn:E; simpl in H.
    + destruct (IH H) as (node & b & Hin & Hb).
      exists node, b; simpl; auto.
    + exists n, b. split; [now left|].
      apply UnknownBars_In. rewrite E. now left.
  - intros (node & b & Hin & Hb & Hc).
    destruct (DoIhaveAnUnknownMember nodes s) eqn:E; [reflexivity|].
    rewrite DoIhaveAnUnknownMember_false in E.
    assert (In b (UnknownBars node s)) by (apply UnknownBars_In; auto).
    rewrite (E node Hin) in H. destruct H.
Qed.

End Readers.

(** ** Effects of the primitive writes *)

Section Effects.

Context {geom : Geometry}.

Lemma frozen_refl (s : Store) : frozen s s.
Proof. intros b _. reflexivity. Qed.

Lemma frozen_trans (s1 s2 s3 : Store) :
  frozen s1 s2 -> frozen s2 s3 -> frozen s1 s3.
Proof.
  intros H12 H23 b Hb.
  rewrite <- (H12 b Hb). apply H23. now rewrite (H12 b Hb).
Qed.

Lemma journal_disciplined_refl (s : Store) : journal_disciplined s s.
Proof. exists []. split; [reflexivity|constructor]. Qed.

Lemma journal_disciplined_trans (s1 s2 s3 : Store) :
  journal_disciplined s1 s2 -> journal_disciplined s2 s3 ->
  journal_disciplined s1 s3.
Proof.
  intros (n1 & E1 & F1) (n2 & E2 & F2).
  exists (n2 ++ n1). split.
  - now rewrite E2, E1, app_assoc.
  - apply Forall_app; auto.
Qed.

(** A write followed by the flag, as one step. *)
Lemma write_then_mark {A} (w : Writer) (b : BarId) (v : Q) (s : Store)
    (k : M A) :
  exists s', settled w b v s s'
             /\ (write_load w b v ;;; mark_computed b ;;; k) s = k s'.
Proof.
  eexists. split; [|reflexivity].
  split; simpl; [|reflexivity].
  intros b'. unfold update. rewrite Nat.eqb_refl. simpl.
  destruct (Nat.eqb b' b); reflexivity.
Qed.

Lemma settled_computed w b v s s' :
  settled w b v s s' -> heap s' b = mkBar true v.
Proof. intros [H _]. rewrite H. now rewrite Nat.eqb_refl. Qed.

Lemma settled_other w b v s s' b' :
  settled w b v s s' -> b' <> b -> heap s' b' = heap s b'.
Proof.
  intros [H _] Hne. rewrite H.
  apply Nat.eqb_neq in Hne. now rewrite Hne.
Qed.

Lemma settled_flag_monotone w b v s s' b' :
  settled w b v s s' ->
  is_computed (heap s b') = true -> is_computed (heap s' b') = true.
Proof.
  intros [H _] Hc. rewrite H. destruct (Nat.eqb b' b); auto.
Qed.

(** Settling an unknown bar freezes nothing that was resolved. *)
Lemma settled_unknown_frozen w b v s s' :
  settled w b v s s' -> is_computed (heap s b) = false -> frozen s s'.
Proof.
  intros [H _] Hu b' Hb'. rewrite H.
  destruct (Nat.eqb b' b) eqn:E; [|reflexivity].
  apply Nat.eqb_eq in E. subst. congruence.
Qed.

(** Settling a bar again with the load it holds changes no bar. *)
Lemma settled_again_frozen w b v s s' :
  settled w b v s s' -> heap s b = mkBar true v -> frozen s s'.
Proof.
  intros [H _] Hv b' _. rewrite H.
  destruct (Nat.eqb b' b) eqn:E; [|reflexivity].
  apply Nat.eqb_eq in E. now subst.
Qed.

Lemma SumOfForcesInLocalX_run (node : Node) (b : BarId) (s : Store) :
  exists s', SumOfForcesInLocalX node b s = Done (- local_x_sum node b s) s'
             /\ settled BySolver b (- local_x_sum node b s) s s'.
Proof.
  unfold SumOfForcesInLocalX. cbv zeta.
  destruct (write_then_mark BySolver b (- local_x_sum node b s) s
              (ret (- local_x_sum node b s))) as (s' & Hs & E).
  exists s'. split; [exact E|exact Hs].
Qed.

Lemma driver_store_run {A} (b : BarId) (v : Q) (s : Store) (k : M A) :
  exists s', settled ByDriver b v s s'
             /\ (SetAxialLoad b v ;;; mark_computed b ;;; k) s = k s'.
Proof. apply write_then_mark. Qed.

End Effects.

(** ** The two solvers and one loop iteration *)

Section Visit.

Context {geom : Geometry}.

(** Past the collinearity guard the divisor is not zero. *)
Lemma guard_excludes_zero (x : Q) :
  Qltb (Qabs x) tolerance = false -> Qeq_bool x 0 = false.
Proof.
  unfold Qltb. intros H. apply negb_false_iff in H.
  apply Qle_bool_iff in H.
  destruct (Qeq_bool x 0) eqn:E; [|reflexivity].
  apply Qeq_bool_eq in E. rewrite E in H.
  exfalso. apply H. reflexivity.
Qed.

Lemma SumOfForcesInLocalY_run (node : Node) (b0 b1 : BarId)
    (rest : list BarId) (s : Store) :
  if collinear node b0 b1 then
    SumOfForcesInLocalY node (b0 :: b1 :: rest) s
    = Abort (GeometryExit (idx node)) s
  else
    exists s',
      SumOfForcesInLocalY node (b0 :: b1 :: rest) s
      = Done (- local_y_sum node b0 s / sin_between node b0 b1) s'
      /\ settled BySolver b1 (- local_y_sum node b0 s / sin_between node b0 b1)
           s s'.
Proof.
  assert (R : SumOfForcesInLocalY node (b0 :: b1 :: rest) s
              = if collinear node b0 b1
                then Abort (GeometryExit (idx node)) s
                else if Qeq_bool (sin_between node b0 b1) 0
                then Abort ZeroDivisionError s
                else (write_load BySolver b1
                        (- local_y_sum node b0 s / sin_between node b0 b1) ;;;
                      mark_computed b1 ;;;
                      ret (- local_y_sum node b0 s / sin_between node b0 b1)) s)
    by reflexivity.
  rewrite R. unfold collinear in *.
  destruct (Qltb (Qabs (sin_between node b0 b1)) tolerance) eqn:G.
  - reflexivity.
  - rewrite (guard_excludes_zero _ G).
    destruct (write_then_mark BySolver b1
                (- local_y_sum node b0 s / sin_between node b0 b1) s
                (ret (- local_y_sum node b0 s / sin_between node b0 b1)))
      as (s' & Hs & E).
    exists s'. split; [exact E|exact Hs].
Qed.

Lemma NodeIsViable_length (node : Node) (s : Store) :
  NodeIsViable node s = true <->
  length (UnknownBars node s) = 1%nat \/ length (UnknownBars node s) = 2%nat.
Proof.
  unfold NodeIsViable. cbv zeta.
  rewrite andb_true_iff, Nat.leb_le, Nat.leb_le. lia.
Qed.

(** The solver then the driver's store, on one bar. *)
Lemma solve_and_store (node : Node) (u : BarId) (s : Store) (k : M bool) :
  exists s1 s2,
    settled BySolver u (- local_x_sum node u s) s s1
    /\ settled ByDriver u (- local_x_sum node u s) s1 s2
    /\ (force <- SumOfForcesInLocalX node u ;;
        SetAxialLoad u force ;;;
        mark_computed u ;;;
        k) s = k s2.
Proof.
  destruct (SumOfForcesInLocalX_run node u s) as (s1 & E1 & H1).
  destruct (driver_store_run u (- local_x_sum node u s) s1 k) as (s2 & H2 & E2).
  exists s1, s2. repeat split; try apply H1; try apply H2.
  unfold bind at 1. rewrite E1. exact E2.
Qed.

Lemma visit_spec (node : Node) (s : Store) :
  visit_result node s (visit node s).
Proof.
  unfold visit.
  destruct (NodeIsViable node s) eqn:V; [|now apply visit_skip].
  apply NodeIsViable_length in V. cbv zeta.
  destruct (UnknownBars node s) as [|u0 [|u1 [|u2 l]]] eqn:U;
    simpl in V; try lia.
  - (* one unknown *)
    simpl Nat.eqb. cbv iota.
    destruct (solve_and_store node u0 s (ret true)) as (s1 & s2 & H1 & H2 & E).
    unfold index; cbn [nth_error]; unfold bind at 1, ret at 1.
    rewrite E. unfold ret.
    eapply visit_one; eauto.
  - (* two unknowns *)
    simpl Nat.eqb. cbv iota.
    pose proof (SumOfForcesInLocalY_run node u0 u1 [] s) as HY.
    destruct (collinear node u0 u1) eqn:G.
    + unfold bind at 1. rewrite HY. eapply visit_two_collinear; eauto.
    + destruct HY as (s1 & EY & H1).
      unfold bind at 1. rewrite EY.
      unfold index at 1; cbn [nth_error]; unfold bind at 1, ret at 1.
      destruct (driver_store_run u1
                  (- local_y_sum node u0 s / sin_between node u0 u1) s1
                  (u0' <- index [u0; u1] 0 ;;
                   force_1 <- SumOfForcesInLocalX node u0' ;;
                   SetAxialLoad u0' force_1 ;;;
                   mark_computed u0' ;;;
                   ret true))
        as (s2 & H2 & E2).
      rewrite E2.
      unfold index at 1; cbn [nth_error]; unfold bind at 1, ret at 1.
      destruct (solve_and_store node u0 s2 (ret true))
        as (s3 & s4 & H3 & H4 & E).
      rewrite E. unfold ret.
      eapply visit_two; eauto.
Qed.

End Visit.

(** ** Invariants of one iteration, one pass and the whole loop *)

Section Invariants.

Context {geom : Geometry}.

Lemma frozen_flag (s s' : Store) (b : BarId) :
  frozen s s' -> is_computed (heap s b) = true ->
  is_computed (heap s' b) = true.
Proof. intros F H. now rewrite (F b H). Qed.

(** A step that settles a bar unknown in the origin store keeps what the
    origin had resolved. *)
Lemma frozen_step (s s1 s2 : Store) w b v :
  frozen s s1 -> settled w b v s1 s2 ->
  is_computed (heap s b) = false -> frozen s s2.
Proof.
  intros F H Hu b' Hb'.
  rewrite (settled_other (b':=b') H); [now apply F|].
  intros ->. congruence.
Qed.

Lemma UnknownBars_head_unknown (node : Node) (s : Store) u l :
  UnknownBars node s = u :: l ->
  In u (bars node) /\ is_computed (heap s u) = false.
Proof.
  intros E. apply UnknownBars_In. rewrite E. now left.
Qed.

Lemma UnknownBars_second_unknown (node : Node) (s : Store) u0 u l :
  UnknownBars node s = u0 :: u :: l ->
  In u (bars node) /\ is_computed (heap s u) = false.
Proof.
  intros E. apply UnknownBars_In. rewrite E. right. now left.
Qed.

Lemma visit_frozen (node : Node) (s : Store) :
  frozen s (store_of (visit node s)).
Proof.
  destruct (visit_spec node s)
    as [V | u0 v s1 s2 U Ev H1 H2 | u0 u1 U G
        | u0 u1 v1 v0 s1 s2 s3 s4 U G E1 H1 H2 E0 H3 H4]; simpl.
  - apply frozen_refl.
  - destruct (UnknownBars_head_unknown _ _ U) as [_ Hu].
    eapply frozen_step; [|exact H2|exact Hu].
    eapply frozen_step; [apply frozen_refl|exact H1|exact Hu].
  - apply frozen_refl.
  - destruct (UnknownBars_head_unknown _ _ U) as [_ Hu0].
    destruct (UnknownBars_second_unknown _ _ U) as [_ Hu1].
    eapply frozen_step; [|exact H4|exact Hu0].
    eapply frozen_step; [|exact H3|exact Hu0].
    eapply frozen_step; [|exact H2|exact Hu1].
    eapply frozen_step; [apply frozen_refl|exact H1|exact Hu1].
Qed.

(** An iteration that reports progress resolves a bar of the node that was
    unknown. *)
Lemma visit_progress (node : Node) (s s' : Store) :
  visit node s = Done true s' ->
  exists b, In b (bars node) /\ is_computed (heap s b) = false
            /\ is_computed (heap s' b) = true.
Proof.
  intros E. pose proof (visit_spec node s) as R. rewrite E in R.
  inversion R as [V | u0 v s1 s2 U Ev H1 H2 | u0 u1 U G
                  | u0 u1 v1 v0 s1 s2 s3 s4 U G E1 H1 H2 E0 H3 H4]; subst.
  - destruct (UnknownBars_head_unknown _ _ U) as [Hin Hu].
    exists u0. repeat split; auto.
    now rewrite (settled_computed H2).
  - destruct (UnknownBars_head_unknown _ _ U) as [Hin Hu].
    exists u0. repeat split; auto.
    now rewrite (settled_computed H4).
Qed.

(** An iteration that reports no progress is a skip. *)
Lemma visit_no_progress (node : Node) (s s' : Store) :
  visit node s = Done false s' -> s' = s /\ NodeIsViable node s = false.
Proof.
  intros E. pose proof (visit_spec node s) as R. rewrite E in R.
  inversion R; subst. auto.
Qed.

Lemma visit_skip_run (node : Node) (s : Store) :
  NodeIsViable node s = false -> visit node s = Done false s.
Proof. intros V. unfold visit. now rewrite V. Qed.

Lemma frozen_unknown (s s' : Store) (b : BarId) :
  frozen s s' -> unknown s b = false -> unknown s' b = false.
Proof.
  unfold unknown. intros F H. apply negb_false_iff in H.
  now rewrite (frozen_flag b F H).
Qed.

Lemma unknown_count_frozen (s s' : Store) (l : list BarId) :
  frozen s s' -> (unknown_count s' l <= unknown_count s l)%nat.
Proof.
  intros F. unfold unknown_count.
  induction l as [|b l IH]; simpl; [lia|].
  destruct (unknown s b) eqn:E.
  - destruct (unknown s' b); simpl; lia.
  - rewrite (frozen_unknown b F E). exact IH.
Qed.

Lemma unknown_count_progress (s s' : Store) (l : list BarId) (b : BarId) :
  frozen s s' -> In b l ->
  is_computed (heap s b) = false -> is_computed (heap s' b) = true ->
  (unknown_count s' l < unknown_count s l)%nat.
Proof.
  intros F Hin Hu Hc.
  induction l as [|x l IH]; [destruct Hin|].
  pose proof (unknown_count_frozen l F) as Hle.
  unfold unknown_count in *. simpl.
  destruct Hin as [->|Hin].
  - assert (E : unknown s b = true) by (unfold unknown; now rewrite Hu).
    assert (E' : unknown s' b = false) by (unfold unknown; now rewrite Hc).
    rewrite E, E'. simpl. lia.
  - specialize (IH Hin).
    destruct (unknown s x) eqn:E.
    + destruct (unknown s' x); simpl; lia.
    + rewrite (frozen_unknown x F E). exact IH.
Qed.

(** One pass: what was resolved stays; a pass without progress changes
    nothing and met no viable node; a pass with progress lowers the count of
    unknown bars in any list that covers the incidence lists. *)
Lemma scan_frozen (nodes : list Node) (p : bool) (s : Store) :
  frozen s (store_of (scan nodes p s)).
Proof.
  revert p s. induction nodes as [|n nodes IH]; intros p s; simpl.
  - apply frozen_refl.
  - unfold bind. pose proof (visit_frozen n s) as F.
    destruct (visit n s) as [q s1|e s1]; simpl in F; [|exact F].
    eapply frozen_trans; [exact F|apply IH].
Qed.

Lemma scan_no_progress (nodes : list Node) (p : bool) (s s' : Store) :
  scan nodes p s = Done false s' ->
  p = false /\ s' = s /\ forall n, In n nodes -> NodeIsViable n s = false.
Proof.
  revert p s. induction nodes as [|n nodes IH]; intros p s; simpl.
  - unfold ret. intros [= -> ->]. repeat split. intros ? [].
  - unfold bind. destruct (visit n s) as [q s1|e s1] eqn:E; [|discriminate].
    intros H. destruct (IH _ _ H) as (Hp & -> & Hv).
    apply orb_false_iff in Hp. destruct Hp as [-> ->].
    destruct (visit_no_progress _ _ E) as [-> V].
    repeat split. intros m [<-|Hin]; auto.
Qed.

Lemma scan_stalled (nodes : list Node) (p : bool) (s : Store) :
  (forall n, In n nodes -> NodeIsViable n s = false) ->
  scan nodes p s = Done p s.
Proof.
  revert p. induction nodes as [|n nodes IH]; intros p H; simpl.
  - reflexivity.
  - unfold bind. rewrite visit_skip_run by (apply H; now left).
    rewrite orb_false_r. apply IH. intros m Hin. apply H. now right.
Qed.

Lemma scan_progress (nodes : list Node) (l : list BarId) (s s' : Store) :
  (forall n, In n nodes -> incl (bars n) l) ->
  scan nodes false s = Done true s' ->
  (unknown_count s' l < unknown_count s l)%nat.
Proof.
  intros Hl.
  assert (G : forall p s s', scan nodes p s = Done true s' ->
              p = true \/ (unknown_count s' l < unknown_count s l)%nat).
  { clear s s'. induction nodes as [|n nodes IH]; intros p s s'; simpl.
    - unfold ret. intros [= -> ->]. now left.
    - unfold bind. destruct (visit n s) as [q s1|e s1] eqn:E; [|discriminate].
      intros H.
      pose proof (scan_frozen nodes (p || q) s1) as F. rewrite H in F.
      simpl in F.
      pose proof (visit_frozen n s) as F1. rewrite E in F1. simpl in F1.
      destruct (IH (fun m Hm => Hl m (or_intror Hm)) _ _ _ H) as [Hp|Hlt].
      + apply orb_true_iff in Hp. destruct Hp as [->| ->]; [now left|].
        right. destruct (visit_progress _ _ E) as (b & Hin & Hu & Hc).
        pose proof (unknown_count_frozen l F) as Hle.
        assert (unknown_count s1 l < unknown_count s l)%nat.
        { eapply unknown_count_progress; eauto.
          apply (Hl n (or_introl eq_refl)). exact Hin. }
        lia.
      + right. pose proof (unknown_count_frozen l F1). lia. }
  intros H. destruct (G _ _ _ H) as [?|?]; [discriminate|assumption].
Qed.

End Invariants.

(** ** The [while] loop *)

Section Loop.

Context {geom : Geometry}.

Variable nodes : list Node.
Variable n_bars : nat.

Lemma while_loop_converged (fuel counter : nat) (s : Store) :
  DoIhaveAnUnknownMember nodes s = false ->
  while_loop fuel nodes n_bars counter s = Converged counter s.
Proof. intros H. destruct fuel; simpl; now rewrite H. Qed.

(** The loop leaves as converged only when the test finds no unknown
    bar. *)
Lemma while_loop_converged_inv (fuel counter p : nat) (s s' : Store) :
  while_loop fuel nodes n_bars counter s = Converged p s' ->
  DoIhaveAnUnknownMember nodes s' = false.
Proof.
  revert counter s. induction fuel as [|fuel IH]; intros counter s; simpl.
  - destruct (DoIhaveAnUnknownMember nodes s) eqn:D; [discriminate|].
    intros [= _ <-]. exact D.
  - destruct (DoIhaveAnUnknownMember nodes s) eqn:D;
      [|intros [= _ <-]; exact D].
    destruct (scan nodes false s) as [q s1|e1 s1]; [|discriminate].
    destruct q; simpl; [|discriminate].
    destruct (n_bars + 5 <? S counter)%nat; [discriminate|apply IH].
Qed.

(** The pass counter makes the fuel sufficient. *)
Lemma while_loop_fuel (fuel counter : nat) (s : Store) :
  (counter <= n_bars + 5)%nat -> (n_bars + 6 <= fuel + counter)%nat ->
  while_loop fuel nodes n_bars counter s <> OutOfFuel.
Proof.
  revert counter s. induction fuel as [|fuel IH]; intros counter s Hc Hf.
  - lia.
  - simpl. destruct (DoIhaveAnUnknownMember nodes s); [|discriminate].
    destruct (scan nodes false s) as [p s'|e s']; [|discriminate].
    destruct p; simpl; [|discriminate].
    destruct (n_bars + 5 <? S counter)%nat eqn:B; [discriminate|].
    apply Nat.ltb_ge in B. apply IH; lia.
Qed.

Lemma while_loop_frozen (fuel counter : nat) (s s' : Store) :
  final_store (while_loop fuel nodes n_bars counter s) = Some s' ->
  frozen s s'.
Proof.
  revert counter s. induction fuel as [|fuel IH]; intros counter s; simpl.
  - destruct (DoIhaveAnUnknownMember nodes s); simpl; [discriminate|].
    intros [= <-]. apply frozen_refl.
  - destruct (DoIhaveAnUnknownMember nodes s); simpl;
      [|intros [= <-]; apply frozen_refl].
    pose proof (scan_frozen nodes false s) as F.
    destruct (scan nodes false s) as [p s1|e s1]; simpl in F;
      [|simpl; intros [= <-]; exact F].
    destruct p; simpl; [|intros [= <-]; exact F].
    destruct (n_bars + 5 <? S counter)%nat; simpl.
    + intros [= <-]; exact F.
    + intros H. eapply frozen_trans; [exact F|eapply IH; eauto].
Qed.

(** The stalled exit leaves the store of a pass that met no viable node
    while a bar was unknown. *)
Lemma while_loop_stuck (fuel counter : nat) (s s' : Store) :
  while_loop fuel nodes n_bars counter s = Exited StuckExit s' ->
  DoIhaveAnUnknownMember nodes s' = true
  /\ scan nodes false s' = Done false s'
  /\ forall n, In n nodes -> NodeIsViable n s' = false.
Proof.
  revert counter s. induction fuel as [|fuel IH]; intros counter s; simpl.
  - destruct (DoIhaveAnUnknownMember nodes s); discriminate.
  - destruct (DoIhaveAnUnknownMember nodes s) eqn:D; [|discriminate].
    destruct (scan nodes false s) as [p s1|e s1] eqn:E.
    + destruct p; simpl.
      * destruct (n_bars + 5 <? S counter)%nat; [discriminate|]. apply IH.
      * intros [= <-].
        destruct (scan_no_progress _ _ _ E) as (_ & -> & V).
        repeat split; auto.
    + intros [= -> <-].
      (* a pass that aborts does so at an iteration, never with this exit *)
      exfalso. clear - E.
      assert (G : forall l p s, scan l p s <> Abort StuckExit s1).
      { induction l as [|n l IHl]; intros p s0; simpl; [discriminate|].
        unfold bind. pose proof (visit_spec n s0) as R.
        destruct (visit n s0) as [q s2|e s2]; [apply IHl|].
        inversion R; discriminate. }
      exact (G _ _ _ E).
Qed.

(** Every pass that continues, and the pass before a bounded exit, made
    progress: the count of unknown bars bounds the passes. *)
Lemma while_loop_passes (l : list BarId) (fuel counter : nat) (s : Store) :
  (forall n, In n nodes -> incl (bars n) l) ->
  match while_loop fuel nodes n_bars counter s with
  | Converged p s' | TooManyIterations p s' =>
      (p + unknown_count s' l <= counter + unknown_count s l)%nat
  | _ => True
  end.
Proof.
  intros Hl. revert counter s.
  induction fuel as [|fuel IH]; intros counter s; simpl.
  - destruct (DoIhaveAnUnknownMember nodes s); auto.
  - destruct (DoIhaveAnUnknownMember nodes s); auto.
    destruct (scan nodes false s) as [p s1|e s1] eqn:E; auto.
    destruct p; simpl; auto.
    pose proof (@scan_progress geom nodes l s s1 Hl E) as Hlt.
    destruct (n_bars + 5 <? S counter)%nat.
    + lia.
    + specialize (IH (S counter) s1).
      destruct (while_loop fuel nodes n_bars (S counter) s1); auto; lia.
Qed.

(** The bounded exit follows a pass that began with a bar unknown and made
    progress, and fires exactly when the counter passes [n_bars + 5]. *)
Lemma while_loop_bounded (fuel counter p : nat) (s s' : Store) :
  while_loop fuel nodes n_bars counter s = TooManyIterations p s' ->
  (n_bars + 5 < p)%nat /\ (counter < p)%nat
  /\ exists s0, DoIhaveAnUnknownMember nodes s0 = true
                /\ scan nodes false s0 = Done true s'.
Proof.
  revert counter s. induction fuel as [|fuel IH]; intros counter s; simpl.
  - destruct (DoIhaveAnUnknownMember nodes s); discriminate.
  - destruct (DoIhaveAnUnknownMember nodes s) eqn:D; [|discriminate].
    destruct (scan nodes false s) as [q s1|e s1] eqn:E; [|discriminate].
    destruct q; simpl; [|discriminate].
    destruct (n_bars + 5 <? S counter)%nat eqn:B.
    + intros [= <- <-]. apply Nat.ltb_lt in B.
      repeat split; try lia. exists s. auto.
    + intros H. destruct (IH _ _ H) as (H1 & H2 & H3).
      repeat split; try lia. exact H3.
Qed.

End Loop.

(** ** The journal of load writes *)

Section Journal.

Context {geom : Geometry}.

Lemma accounted_refl (s : Store) : accounted s s.
Proof. exists []. split; [reflexivity|]. intros b. now left. Qed.

Lemma accounted_trans (s1 s2 s3 : Store) :
  accounted s1 s2 -> accounted s2 s3 -> accounted s1 s3.
Proof.
  intros (n1 & E1 & A1) (n2 & E2 & A2).
  exists (n2 ++ n1). split; [now rewrite E2, E1, app_assoc|].
  intros b. destruct (A2 b) as [Same|(Hc & w & Hin & Hb & Hv)].
  - destruct (A1 b) as [Same1|(Hc & w & Hin & Hb & Hv)].
    + left. congruence.
    + right. rewrite Same. split; [exact Hc|].
      exists w. repeat split; auto. apply in_or_app. now right.
  - right. split; [exact Hc|].
    exists w. repeat split; auto. apply in_or_app. now left.
Qed.

Lemma settled_accounted w b v s s' : settled w b v s s' -> accounted s s'.
Proof.
  intros H. pose proof H as [Hh Hj].
  exists [mkLoadWrite w b (is_computed (heap s b)) (axial_load (heap s b)) v].
  split; [exact Hj|].
  intros b'. destruct (Nat.eq_dec b' b) as [->|Hne].
  - right. rewrite (settled_computed H). split; [reflexivity|].
    eexists. split; [now left|]. split; reflexivity.
  - left. now apply (settled_other H).
Qed.

Lemma settled_by_solver_disciplined b v s s' :
  settled BySolver b v s s' -> is_computed (heap s b) = false ->
  journal_disciplined s s'.
Proof.
  intros [_ Hj] Hu. eexists [_]. split; [exact Hj|].
  constructor; [|constructor]. exact Hu.
Qed.

Lemma settled_by_driver_disciplined b v s s' :
  settled ByDriver b v s s' -> heap s b = mkBar true v ->
  journal_disciplined s s'.
Proof.
  intros [_ Hj] Hv. eexists [_]. split; [exact Hj|].
  constructor; [|constructor]. unfold disciplined. simpl.
  rewrite Hv. simpl. split; reflexivity.
Qed.

Lemma visit_accounted (node : Node) (s : Store) :
  accounted s (store_of (visit node s)).
Proof.
  destruct (visit_spec node s)
    as [V | u0 v s1 s2 U Ev H1 H2 | u0 u1 U G
        | u0 u1 v1 v0 s1 s2 s3 s4 U G E1 H1 H2 E0 H3 H4]; simpl.
  - apply accounted_refl.
  - apply (accounted_trans (settled_accounted H1) (settled_accounted H2)).
  - apply accounted_refl.
  - apply (accounted_trans (settled_accounted H1)).
    apply (accounted_trans (settled_accounted H2)).
    apply (accounted_trans (settled_accounted H3) (settled_accounted H4)).
Qed.

(** The iteration at a node whose incidence list has no repetition keeps
    the discipline. *)
Lemma visit_disciplined (node : Node) (s : Store) :
  NoDup (bars node) -> journal_disciplined s (store_of (visit node s)).
Proof.
  intros ND.
  destruct (visit_spec node s)
    as [V | u0 v s1 s2 U Ev H1 H2 | u0 u1 U G
        | u0 u1 v1 v0 s1 s2 s3 s4 U G E1 H1 H2 E0 H3 H4]; simpl.
  - apply journal_disciplined_refl.
  - destruct (UnknownBars_head_unknown _ _ U) as [_ Hu].
    eapply journal_disciplined_trans.
    + eapply settled_by_solver_disciplined; eauto.
    + eapply settled_by_driver_disciplined; eauto.
      apply (settled_computed H1).
  - apply journal_disciplined_refl.
  - destruct (UnknownBars_head_unknown _ _ U) as [_ Hu0].
    destruct (UnknownBars_second_unknown _ _ U) as [_ Hu1].
    assert (Hne : u0 <> u1).
    { pose proof (NoDup_filter (unknown s) ND) as N.
      rewrite <- UnknownBars_filter, U in N.
      inversion N as [|? ? Hnin _]; subst. intros ->. apply Hnin. now left. }
    eapply journal_disciplined_trans;
      [eapply settled_by_solver_disciplined; eauto|].
    eapply journal_disciplined_trans;
      [eapply settled_by_driver_disciplined; eauto;
       apply (settled_computed H1)|].
    eapply journal_disciplined_trans.
    + eapply settled_by_solver_disciplined; eauto.
      rewrite (settled_other H2 Hne), (settled_other H1 Hne). exact Hu0.
    + eapply settled_by_driver_disciplined; eauto.
      apply (settled_computed H3).
Qed.

Lemma scan_accounted (nodes : list Node) (p : bool) (s : Store) :
  accounted s (store_of (scan nodes p s)).
Proof.
  revert p s. induction nodes as [|n nodes IH]; intros p s; simpl.
  - apply accounted_refl.
  - unfold bind. pose proof (visit_accounted n s) as F.
    destruct (visit n s) as [q s1|e s1]; simpl in F; [|exact F].
    eapply accounted_trans; [exact F|apply IH].
Qed.

Lemma scan_disciplined (nodes : list Node) (p : bool) (s : Store) :
  (forall n, In n nodes -> NoDup (bars n)) ->
  journal_disciplined s (store_of (scan nodes p s)).
Proof.
  revert p s. induction nodes as [|n nodes IH]; intros p s ND; simpl.
  - apply journal_disciplined_refl.
  - unfold bind.
    pose proof (visit_disciplined n s (ND n (or_introl eq_refl))) as F.
    destruct (visit n s) as [q s1|e s1]; simpl in F; [|exact F].
    eapply journal_disciplined_trans; [exact F|apply IH].
    intros m Hm. apply ND. now right.
Qed.

(** A property of stores that every pass preserves holds across the
    loop. *)
Lemma while_loop_preserves (R : Store -> Store -> Prop)
    (nodes : list Node) (n_bars : nat) :
  (forall s, R s s) ->
  (forall s1 s2 s3, R s1 s2 -> R s2 s3 -> R s1 s3) ->
  (forall s, R s (store_of (scan nodes false s))) ->
  forall fuel counter s s',
    final_store (while_loop fuel nodes n_bars counter s) = Some s' -> R s s'.
Proof.
  intros Rrefl Rtrans Rscan.
  induction fuel as [|fuel IH]; intros counter s s'; simpl.
  - destruct (DoIhaveAnUnknownMember nodes s); simpl; [discriminate|].
    intros [= <-]. apply Rrefl.
  - destruct (DoIhaveAnUnknownMember nodes s); simpl;
      [|intros [= <-]; apply Rrefl].
    pose proof (Rscan s) as F.
    destruct (scan nodes false s) as [p s1|e s1]; simpl in F;
      [|simpl; intros [= <-]; exact F].
    destruct p; simpl; [|intros [= <-]; exact F].
    destruct (n_bars + 5 <? S counter)%nat; simpl.
    + intros [= <-]; exact F.
    + intros H. eapply Rtrans; [exact F|eapply IH; eauto].
Qed.

End Journal.

(** ** The sums of the solvers against their wording *)

Section Sums.

Context {geom : Geometry}.

(** Adding to the initial [0.0] is exact. *)
Lemma Qplus_0_l_exact (x : Q) : 0 + x = x.
Proof.
  destruct x as [n d]. unfold Qplus. simpl. now rewrite Z.mul_1_r.
Qed.

Lemma fold_left_guarded {A} (g : A -> bool) (f : A -> Q) (l : list A)
    (start : Q) :
  fold_left (fun acc a => if g a then acc + f a else acc) l start
  = fold_left Qplus (map f (filter g l)) start.
Proof.
  revert start. induction l as [|a l IH]; intros start; simpl.
  - reflexivity.
  - destruct (g a); simpl; apply IH.
Qed.

Lemma fold_left_pointwise {A B} (F G : B -> A -> B) (l : list A) (start : B) :
  (forall acc a, F acc a = G acc a) ->
  fold_left F l start = fold_left G l start.
Proof.
  intros H. revert start. induction l as [|a l IH]; intros start; simpl.
  - reflexivity.
  - rewrite H. apply IH.
Qed.

Lemma filter_pointwise {A} (g h : A -> bool) (l : list A) :
  (forall a, In a l -> g a = h a) -> filter g l = filter h l.
Proof.
  induction l as [|a l IH]; intros H; simpl; [reflexivity|].
  rewrite (H a (or_introl eq_refl)), IH; [reflexivity|].
  intros b Hb. apply H. now right.
Qed.

Lemma local_y_sum_worded (node : Node) (bar_0 : BarId) (s : Store) :
  local_y_sum node bar_0 s = sine_projected_sum node bar_0 s.
Proof.
  unfold local_y_sum, sine_projected_sum, known_bars_sum. cbv zeta.
  rewrite Qplus_0_l_exact.
  apply (fold_left_guarded (fun bar => is_computed (heap s bar))
           (fun bar => axial_load (heap s bar)
                       * SineVectors (BarNodeToVector node bar_0)
                           (BarNodeToVector node bar))).
Qed.

Lemma local_x_sum_worded (node : Node) (target : BarId) (s : Store) :
  (forall b, In b (bars node) -> b <> target ->
             is_computed (heap s b) = true) ->
  local_x_sum node target s = cosine_projected_sum node target s.
Proof.
  intros Pre.
  unfold local_x_sum, cosine_projected_sum, other_bars_sum. cbv zeta.
  rewrite Qplus_0_l_exact.
  rewrite <- (filter_pointwise
                (fun bar => negb (Nat.eqb bar target)
                            && is_computed (heap s bar))
                (fun bar => negb (Nat.eqb bar target))).
  - rewrite <- (fold_left_guarded
                  (fun bar => negb (Nat.eqb bar target)
                              && is_computed (heap s bar))
                  (fun bar => axial_load (heap s bar)
                              * CosineVectors (BarNodeToVector node target)
                                  (BarNodeToVector node bar))).
    apply fold_left_pointwise. intros acc bar.
    destruct (Nat.eqb bar target), (is_computed (heap s bar)); reflexivity.
  - intros b Hb. destruct (Nat.eqb b target) eqn:E; simpl; [reflexivity|].
    apply Pre; [exact Hb|]. now apply Nat.eqb_neq.
Qed.

Lemma Qltb_lt (x y : Q) : Qltb x y = true <-> x < y.
Proof.
  unfold Qltb. rewrite negb_true_iff.
  split.
  - intros H. apply Qnot_le_lt. intros L.
    apply Qle_bool_iff in L. congruence.
  - intros H. destruct (Qle_bool y x) eqn:E; [|reflexivity].
    apply Qle_bool_iff in E. exfalso. now apply (Qlt_not_le x y).
Qed.

Lemma scan_app (l1 l2 : list Node) (p : bool) (s : Store) :
  scan (l1 ++ l2) p s = (p1 <- scan l1 p ;; scan l2 p1) s.
Proof.
  revert p s. induction l1 as [|n l1 IH]; intros p s; simpl.
  - reflexivity.
  - unfold bind in *. destruct (visit n s) as [q s1|e s1].
    + rewrite IH. reflexivity.
    + reflexivity.
Qed.

End Sums.

(** * The claims *)

Section Claims.

Context {geom : Geometry}.

(** C8.  [UnknownBars] returns exactly the incident bars whose flag is off,
    in the order of the incidence list, and [NodeIsViable] holds exactly when
    there are one or two of them.  Both only read the store: they are
    functions of it and return no store. *)
Theorem viability_classifier (node : Node) (s : Store) :
  UnknownBars node s
  = filter (fun b => negb (is_computed (heap s b))) (bars node)
  /\ (NodeIsViable node s = true <->
      length (filter (fun b => negb (is_computed (heap s b))) (bars node)) = 1%nat
      \/ length (filter (fun b => negb (is_computed (heap s b))) (bars node))
         = 2%nat).
Proof.
  split.
  - apply UnknownBars_filter.
  - rewrite NodeIsViable_length, UnknownBars_filter. reflexivity.
Qed.


(** The driver always ends: the fuel given to the loop is never used
    up. *)
Lemma IterateUsingMethodOfJoints_total (nodes : list Node)
    (all_bars : list BarId) (s : Store) :
  IterateUsingMethodOfJoints nodes all_bars s <> OutOfFuel.
Proof.
  unfold IterateUsingMethodOfJoints. apply while_loop_fuel; lia.
Qed.

(** C6.  At the head of any pass: when a bar is unknown and the pass over
    all nodes makes no progress, the driver ends there with the stalled exit
    and the store as it was, so no further bar is resolved.  Conversely, a
    run that ends with the stalled exit ends in a store where a bar is
    unknown and a pass finds no viable node and changes nothing. *)
Theorem stalled_exit (nodes : list Node) (n_bars : nat) :
  (forall fuel counter s s1,
      DoIhaveAnUnknownMember nodes s = true ->
      scan nodes false s = Done false s1 ->
      s1 = s
      /\ while_loop (S fuel) nodes n_bars counter s = Exited StuckExit s)
  /\ (forall fuel counter s s',
      while_loop fuel nodes n_bars counter s = Exited StuckExit s' ->
      DoIhaveAnUnknownMember nodes s' = true
      /\ scan nodes false s' = Done false s'
      /\ (forall n, In n nodes -> NodeIsViable n s' = false)
      /\ frozen s s').
Proof.
  split.
  - intros fuel counter s s1 D E.
    destruct (scan_no_progress _ _ _ E) as (_ & -> & _).
    split; [reflexivity|]. simpl. now rewrite D, E.
  - intros fuel counter s s' H.
    destruct (while_loop_stuck _ _ _ _ _ H) as (D & E & V).
    repeat split; auto.
    eapply while_loop_frozen. rewrite H. reflexivity.
Qed.

(** Exits of a pass come from the collinearity guard at one of its
    nodes. *)
Lemma scan_abort (nodes : list Node) (p : bool) (s s' : Store) (e : Exit) :
  scan nodes p s = Abort e s' ->
  exists n, In n nodes /\ e = GeometryExit (idx n).
Proof.
  revert p s. induction nodes as [|n nodes IH]; intros p s; simpl.
  - discriminate.
  - unfold bind. pose proof (visit_spec n s) as R.
    destruct (visit n s) as [q s1|e1 s1].
    + intros H. destruct (IH _ _ H) as (m & Hm & He).
      exists m. split; [now right|exact He].
    + intros [= -> ->]. exists n. split; [now left|].
      inversion R; reflexivity.
Qed.

Lemma while_loop_exit (nodes : list Node) (n_bars fuel counter : nat)
    (s s' : Store) (e : Exit) :
  while_loop fuel nodes n_bars counter s = Exited e s' ->
  e = StuckExit \/ exists n, In n nodes /\ e = GeometryExit (idx n).
Proof.
  revert counter s. induction fuel as [|fuel IH]; intros counter s; simpl.
  - destruct (DoIhaveAnUnknownMember nodes s); discriminate.
  - destruct (DoIhaveAnUnknownMember nodes s); [|discriminate].
    destruct (scan nodes false s) as [q s1|e1 s1] eqn:E.
    + destruct q; simpl.
      * destruct (n_bars + 5 <? S counter)%nat; [discriminate|apply IH].
      * intros [= <- <-]. now left.
    + intros [= -> ->]. right. eapply scan_abort; eauto.
Qed.

Lemma solvers_keep_flags (node : Node) (s : Store) (b' : BarId) :
  is_computed (heap s b') = true ->
  (forall b, is_computed (heap (store_of (SumOfForcesInLocalX node b s)) b')
             = true)
  /\ (forall l, is_computed (heap (store_of (SumOfForcesInLocalY node l s)) b')
                = true).
Proof.
  intros Hc. split.
  - intros b. destruct (SumOfForcesInLocalX_run node b s) as (s' & E & H).
    rewrite E. simpl. eapply settled_flag_monotone; eauto.
  - intros [|b0 [|b1 rest]]; try exact Hc.
    pose proof (SumOfForcesInLocalY_run node b0 b1 rest s) as R.
    destruct (collinear node b0 b1).
    + rewrite R. exact Hc.
    + destruct R as (s' & E & H). rewrite E. simpl.
      eapply settled_flag_monotone; eauto.
Qed.

(** C1, as the code has it.  Neither solver ever clears a flag.  Across the
    loop, started in any store: a bar that is resolved keeps its flag and its
    load; and, when no incidence list names a bar twice, every write to
    [axial_load] is either a solver's write to a bar that is not resolved, or
    the driver's [SetAxialLoad] storing again, in the bar the solver has just
    resolved, the load that bar holds. *)
Theorem resolved_bars_are_frozen (nodes : list Node)
    (n_bars fuel counter : nat) (s s' : Store) :
  (forall n, In n nodes -> NoDup (bars n)) ->
  final_store (while_loop fuel nodes n_bars counter s) = Some s' ->
  (forall node b', is_computed (heap s b') = true ->
      (forall b, is_computed
                   (heap (store_of (SumOfForcesInLocalX node b s)) b') = true)
      /\ (forall l, is_computed
                      (heap (store_of (SumOfForcesInLocalY node l s)) b') = true))
  /\ frozen s s'
  /\ journal_disciplined s s'.
Proof.
  intros ND H. split; [|split].
  - intros node b'. apply solvers_keep_flags.
  - eapply while_loop_frozen; eauto.
  - eapply (while_loop_preserves journal_disciplined); eauto.
    + apply journal_disciplined_refl.
    + apply journal_disciplined_trans.
    + intros s0. now apply scan_disciplined.
Qed.

(** An exit inside a pass is the collinearity exit of a node of the list
    which, in the store left behind, has exactly two unknown bars, and they
    are collinear. *)
Lemma scan_abort_collinear (nodes : list Node) (p : bool) (s s' : Store)
    (e : Exit) :
  scan nodes p s = Abort e s' ->
  exists n u0 u1, In n nodes /\ e = GeometryExit (idx n)
                  /\ UnknownBars n s' = [u0; u1]
                  /\ collinear n u0 u1 = true.
Proof.
  revert p s. induction nodes as [|n nodes IH]; intros p s; simpl.
  - discriminate.
  - unfold bind. pose proof (visit_spec n s) as R.
    destruct (visit n s) as [q s1|e1 s1].
    + intros H. destruct (IH _ _ H) as (m & u0 & u1 & Hm & He).
      exists m, u0, u1. split; [now right|exact He].
    + intros [= -> ->].
      inversion R as [| | u0 u1 U G|]; subst.
      exists n, u0, u1. split; [now left|]. repeat split; auto.
Qed.

(** The two ways the loop ends abnormally, with the store each leaves. *)
Lemma while_loop_exit_cases (nodes : list Node) (n_bars fuel counter : nat)
    (s s' : Store) (e : Exit) :
  while_loop fuel nodes n_bars counter s = Exited e s' ->
  (e = StuckExit
   /\ DoIhaveAnUnknownMember nodes s' = true
   /\ forall n, In n nodes -> NodeIsViable n s' = false)
  \/ (exists n u0 u1, In n nodes /\ e = GeometryExit (idx n)
                      /\ UnknownBars n s' = [u0; u1]
                      /\ collinear n u0 u1 = true).
Proof.
  revert counter s. induction fuel as [|fuel IH]; intros counter s; simpl.
  - destruct (DoIhaveAnUnknownMember nodes s); intros H; discriminate H.
  - destruct (DoIhaveAnUnknownMember nodes s) eqn:D;
      [|intros H; discriminate H].
    destruct (scan nodes false s) as [q s1|e1 s1] eqn:E.
    + destruct q; simpl.
      * destruct (n_bars + 5 <? S counter)%nat;
          [intros H; discriminate H|apply IH].
      * intros [= <- <-]. left.
        destruct (scan_no_progress _ _ _ E) as (_ & -> & V). auto.
    + intros [= -> ->]. right. eapply scan_abort_collinear; eauto.
Qed.

(** C2, as the code has it.  When [all_bars] names every bar incident to a
    node, the driver ends in exactly one of three ways, and never through
    the bounded exit:
    - with the stalled exit, in a store where a bar is unknown and no node
      is viable;
    - with the collinearity exit of a listed node that, in the store left
      behind, has exactly two unknown bars, which are collinear;
    - converged, after at most [len(all_bars)] passes, with every incident
      bar resolved, every bar it changed holding a load that was written to
      it, and the bars that were resolved at the start untouched.
    Hence the driver converges whenever, in every store that keeps what is
    resolved at the start, an unknown bar comes with a viable node and no
    listed node has two unknown bars that are collinear. *)
Theorem converges_unless_fatal (nodes : list Node) (all_bars : list BarId)
    (s : Store) :
  (forall n, In n nodes -> incl (bars n) all_bars) ->
  ((exists s',
       IterateUsingMethodOfJoints nodes all_bars s = Exited StuckExit s'
       /\ DoIhaveAnUnknownMember nodes s' = true
       /\ (forall n, In n nodes -> NodeIsViable n s' = false)
       /\ frozen s s')
   \/ (exists n u0 u1 s',
       IterateUsingMethodOfJoints nodes all_bars s
       = Exited (GeometryExit (idx n)) s'
       /\ In n nodes
       /\ UnknownBars n s' = [u0; u1]
       /\ collinear n u0 u1 = true
       /\ frozen s s')
   \/ ends_converged nodes all_bars s
        (IterateUsingMethodOfJoints nodes all_bars s))
  /\ ((forall s1, frozen s s1 -> DoIhaveAnUnknownMember nodes s1 = true ->
                  exists n, In n nodes /\ NodeIsViable n s1 = true) ->
      (forall s1 n u0 u1, frozen s s1 -> In n nodes ->
                          UnknownBars n s1 = [u0; u1] ->
                          collinear n u0 u1 = false) ->
      ends_converged nodes all_bars s
        (IterateUsingMethodOfJoints nodes all_bars s)).
Proof.
  intros Hl.
  assert (Three :
    (exists s',
        IterateUsingMethodOfJoints nodes all_bars s = Exited StuckExit s'
        /\ DoIhaveAnUnknownMember nodes s' = true
        /\ (forall n, In n nodes -> NodeIsViable n s' = false)
        /\ frozen s s')
    \/ (exists n u0 u1 s',
        IterateUsingMethodOfJoints nodes all_bars s
        = Exited (GeometryExit (idx n)) s'
        /\ In n nodes
        /\ UnknownBars n s' = [u0; u1]
        /\ collinear n u0 u1 = true
        /\ frozen s s')
    \/ ends_converged nodes all_bars s
         (IterateUsingMethodOfJoints nodes all_bars s)).
  { unfold ends_converged, IterateUsingMethodOfJoints.
    set (n_bars := length all_bars).
    pose proof (@while_loop_fuel geom nodes n_bars (n_bars + 6) 0 s) as Hfuel.
    pose proof (@while_loop_passes geom nodes n_bars all_bars (n_bars + 6) 0 s
                  Hl) as Hp.
    assert (Hc : (unknown_count s all_bars <= n_bars)%nat)
      by (unfold unknown_count; apply filter_length_le).
    destruct (while_loop (n_bars + 6) nodes n_bars 0 s)
      as [p s'|p s'|e s'|] eqn:E.
    - right. right. exists p, s'. split; [reflexivity|].
      split; [lia|]. split; [|split].
      + intros n b Hn Hb.
        destruct (is_computed (heap s' b)) eqn:C; [reflexivity|].
        assert (D : DoIhaveAnUnknownMember nodes s' = true)
          by (apply DoIhaveAnUnknownMember_true; eauto).
        rewrite (while_loop_converged_inv _ _ _ _ _ E) in D. discriminate.
      + eapply (while_loop_preserves accounted); eauto using accounted_refl,
          accounted_trans.
        * intros s0. apply scan_accounted.
        * rewrite E. reflexivity.
      + eapply while_loop_frozen. rewrite E. reflexivity.
    - exfalso. destruct (while_loop_bounded _ _ _ _ _ E) as (Hb & _). lia.
    - assert (F : frozen s s')
        by (eapply while_loop_frozen; rewrite E; reflexivity).
      destruct (while_loop_exit_cases _ _ _ _ _ E)
        as [(-> & D & V)|(n & u0 & u1 & Hn & -> & U & G)].
      + left. exists s'. auto.
      + right. left. exists n, u0, u1, s'. auto.
    - exfalso. apply Hfuel; [lia|lia|reflexivity]. }
  split; [exact Three|].
  intros Viable Apart.
  destruct Three as [(s' & _ & D & V & F)
                    |[(n & u0 & u1 & s' & _ & Hn & U & G & F)|C]].
  - exfalso. destruct (Viable s' F D) as (n & Hn & Vn).
    rewrite (V n Hn) in Vn. discriminate.
  - exfalso. rewrite (Apart s' n u0 u1 F Hn U) in G. discriminate.
  - exact C.
Qed.

(** C7, as the code has it.  At the head of any pass with a bar unknown:
    when the pass makes progress and the incremented counter exceeds
    [n_bars + 5], the driver returns then and there through the bounded exit,
    with the store as that pass left it.  Conversely the bounded exit occurs
    only with the counter above [n_bars + 5], after a pass that began with a
    bar unknown and made progress.  It does not occur when the loop test
    finds every bar resolved, and never when started with a counter of 0 and
    [n_bars] at least the length of a list naming every incident bar. *)
Theorem bounded_exit (nodes : list Node) (n_bars : nat) :
  (forall fuel counter s s1,
      DoIhaveAnUnknownMember nodes s = true ->
      scan nodes false s = Done true s1 ->
      (n_bars + 5 < S counter)%nat ->
      while_loop (S fuel) nodes n_bars counter s
      = TooManyIterations (S counter) s1)
  /\ (forall fuel counter s p s',
      while_loop fuel nodes n_bars counter s = TooManyIterations p s' ->
      (n_bars + 5 < p)%nat
      /\ exists s0, DoIhaveAnUnknownMember nodes s0 = true
                    /\ scan nodes false s0 = Done true s')
  /\ (forall fuel counter s,
      DoIhaveAnUnknownMember nodes s = false ->
      while_loop fuel nodes n_bars counter s = Converged counter s)
  /\ (forall l fuel s p s',
      (forall n, In n nodes -> incl (bars n) l) ->
      (length l <= n_bars)%nat ->
      while_loop fuel nodes n_bars 0 s <> TooManyIterations p s').
Proof.
  repeat split.
  - intros fuel counter s s1 D E B. simpl. rewrite D, E. simpl.
    apply Nat.ltb_lt in B. now rewrite B.
  - destruct (while_loop_bounded _ _ _ _ _ H) as (B & _). exact B.
  - destruct (while_loop_bounded _ _ _ _ _ H) as (_ & _ & B). exact B.
  - intros fuel counter s D. now apply while_loop_converged.
  - intros l fuel s p s' Hl Hn E.
    pose proof (@while_loop_passes geom nodes n_bars l fuel 0 s Hl) as Hp.
    rewrite E in Hp.
    destruct (while_loop_bounded _ _ _ _ _ E) as (B & _).
    assert ((unknown_count s l <= length l)%nat)
      by (unfold unknown_count; apply filter_length_le).
    lia.
Qed.

(** C3, as the code has it, in exact arithmetic.  [SumOfForcesInLocalY]
    on a list starting with [bar_a; bar_b]
    ends with the geometry exit naming the node exactly when
    [|sin_theta| < 1e-9]; it has no other abnormal end, and an abnormal end
    leaves the store as it was: nothing is written and nothing divided.
    Otherwise the divisor is not zero, and the call stores in [bar_b] the
    load [-(sum) / sin_theta], where the sum is the sine-projected external
    force plus the sine-projected loads of the resolved bars, sets its flag,
    journals that one write, and changes no other bar. *)
Theorem two_unknown_form (node : Node) (bar_a bar_b : BarId)
    (rest : list BarId) (s : Store) :
  (SumOfForcesInLocalY node (bar_a :: bar_b :: rest) s
   = Abort (GeometryExit (idx node)) s
   <-> Qabs (sin_between node bar_a bar_b) < tolerance)
  /\ (forall e s',
        SumOfForcesInLocalY node (bar_a :: bar_b :: rest) s = Abort e s' ->
        e = GeometryExit (idx node) /\ s' = s)
  /\ (~ Qabs (sin_between node bar_a bar_b) < tolerance ->
      ~ sin_between node bar_a bar_b == 0
      /\ exists s',
          SumOfForcesInLocalY node (bar_a :: bar_b :: rest) s
          = Done (- sine_projected_sum node bar_a s
                  / sin_between node bar_a bar_b) s'
          /\ heap s' bar_b
             = mkBar true (- sine_projected_sum node bar_a s
                           / sin_between node bar_a bar_b)
          /\ (forall b, b <> bar_b -> heap s' b = heap s b)
          /\ journal s'
             = mkLoadWrite BySolver bar_b (is_computed (heap s bar_b))
                 (axial_load (heap s bar_b))
                 (- sine_projected_sum node bar_a s
                  / sin_between node bar_a bar_b)
               :: journal s).
Proof.
  pose proof (SumOfForcesInLocalY_run node bar_a bar_b rest s) as R.
  rewrite local_y_sum_worded in R.
  unfold collinear in R. rewrite <- Qltb_lt.
  destruct (Qltb (Qabs (sin_between node bar_a bar_b)) tolerance) eqn:G.
  - rewrite R. split; [split; reflexivity|]. split.
    + intros e s' [= <- <-]. split; reflexivity.
    + intros H. contradiction H. reflexivity.
  - destruct R as (s' & E & H). rewrite E.
    split; [split; discriminate|]. split; [discriminate|].
    intros _. split.
    + intros Z. apply Qeq_bool_iff in Z.
      rewrite (guard_excludes_zero _ G) in Z. discriminate.
    + exists s'. split; [reflexivity|]. split; [apply (settled_computed H)|].
      split; [|apply H].
      intros b Hb. apply (settled_other H Hb).
Qed.

(** C5.  When every incident bar other than [target_bar] is resolved,
    [SumOfForcesInLocalX] stores in [target_bar] the negation of: the net
    external x-force times the cosine of the bar's direction to global X,
    plus the net y-force times the cosine to global Y, plus the load of
    every other incident bar times the cosine of the angle between the two
    bars; it sets the flag, returns that load, and changes no other bar. *)
Theorem single_unknown_form (node : Node) (target_bar : BarId) (s : Store) :
  (forall b, In b (bars node) -> b <> target_bar ->
             is_computed (heap s b) = true) ->
  exists s',
    SumOfForcesInLocalX node target_bar s
    = Done (- cosine_projected_sum node target_bar s) s'
    /\ heap s' target_bar
       = mkBar true (- cosine_projected_sum node target_bar s)
    /\ forall b, b <> target_bar -> heap s' b = heap s b.
Proof.
  intros Pre.
  destruct (SumOfForcesInLocalX_run node target_bar s) as (s' & E & H).
  rewrite (@local_x_sum_worded geom node target_bar s Pre) in E, H.
  exists s'. split; [exact E|]. split; [apply (settled_computed H)|].
  intros b Hb. apply (settled_other H Hb).
Qed.

(** C4.  A pass visits the nodes in list order, each in the store the
    earlier visits of the same pass left.  At its visit a node is handled by
    [visit_result]: with two unknown bars [u0; u1] the two-unknown form with
    axis [u0] and target [u1], then the single-unknown form on [u0]; with
    one unknown bar the single-unknown form on it; otherwise nothing.  The
    visit sets [progress_made] exactly when the node was viable in that
    store, and an exit at a visit ends the pass. *)
Theorem pass_visits_live (pre : list Node) (node : Node) (post : list Node)
    (p : bool) (s : Store) :
  match scan pre p s with
  | Abort e s1 => scan (pre ++ node :: post) p s = Abort e s1
  | Done p1 s1 =>
      visit_result node s1 (visit node s1)
      /\ match visit node s1 with
         | Done v s2 =>
             (v = true <-> NodeIsViable node s1 = true)
             /\ scan (pre ++ node :: post) p s = scan post (p1 || v) s2
         | Abort e s2 =>
             NodeIsViable node s1 = true
             /\ scan (pre ++ node :: post) p s = Abort e s2
         end
  end.
Proof.
  rewrite scan_app. unfold bind.
  destruct (scan pre p s) as [p1 s1|e s1]; [|reflexivity].
  pose proof (visit_spec node s1) as R. split; [exact R|].
  simpl. unfold bind.
  destruct (visit node s1) as [v s2|e s2].
  - split; [|reflexivity].
    inversion R as [V | u0 v' sa sb U Ev H1 H2 | u0 u1 U G
                    | u0 u1 v1 v0 sa sb sc sd U G E1 H1 H2 E0 H3 H4]; subst.
    + rewrite V. split; discriminate.
    + split; [|reflexivity]. intros _.
      apply NodeIsViable_length. rewrite U. now left.
    + split; [|reflexivity]. intros _.
      apply NodeIsViable_length. rewrite U. now right.
  - split; [|reflexivity].
    inversion R as [| | u0 u1 U G|]; subst.
    apply NodeIsViable_length. rewrite U. now right.
Qed.

End Claims.


(** C6 at the complex truss: every node has three unknown bars. *)
Lemma stalled_exit_witness :
  IterateUsingMethodOfJoints (geom := Prism.geometry) Prism.nodes
    Prism.all_bars fresh
  = Exited StuckExit fresh.
Proof.
  apply (proj1 (stalled_exit (geom := Prism.geometry) Prism.nodes 9)
           14%nat 0%nat fresh fresh); reflexivity.
Defined.

(** ** Outcomes and what is observed of them *)

Lemma final_store_the_store (f : Final) :
  f <> OutOfFuel -> final_store f = Some (the_store f).
Proof. destruct f; intros H; try reflexivity. now contradiction H. Qed.

Lemma done_of_value {A} (o : Outcome A) (a : A) :
  value_of o = Some a -> o = Done a (store_of o).
Proof. destruct o; simpl; intros [= <-]; reflexivity. Qed.

Lemma verdict_converged (f : Final) (p : nat) :
  verdict f = EndsConverged p -> f = Converged p (the_store f).
Proof. destruct f; simpl; intros [= <-]; reflexivity. Qed.

Lemma verdict_bounded (f : Final) (p : nat) :
  verdict f = EndsTooManyIterations p -> f = TooManyIterations p (the_store f).
Proof. destruct f; simpl; intros [= <-]; reflexivity. Qed.

(** C1 at the one-bar example: the final store and the discipline of its
    journal. *)
Lemma resolved_bars_are_frozen_witness :
  frozen fresh
    (the_store (IterateUsingMethodOfJoints (geom := OneBar.geometry)
                  OneBar.nodes OneBar.all_bars fresh))
  /\ journal_disciplined fresh
       (the_store (IterateUsingMethodOfJoints (geom := OneBar.geometry)
                     OneBar.nodes OneBar.all_bars fresh)).
Proof.
  apply (@resolved_bars_are_frozen OneBar.geometry OneBar.nodes 1 7 0 fresh).
  - intros n [<-|[]]. simpl. repeat constructor. intros [].
  - apply final_store_the_store. apply while_loop_fuel; simpl; lia.
Defined.

(** C1 as stated fails at the one-bar example.  The run converges after
    one pass, and its journal reads, latest entry first: the solver writes
    the load of bar 0 while its flag is off (and sets the flag); then the
    driver writes the load of bar 0, whose flag is on. *)
Lemma driver_writes_resolved_bar :
  verdict (IterateUsingMethodOfJoints (geom := OneBar.geometry)
             OneBar.nodes OneBar.all_bars fresh)
  = EndsConverged 1
  /\ map who_wrote
       (journal
          (the_store (IterateUsingMethodOfJoints (geom := OneBar.geometry)
                        OneBar.nodes OneBar.all_bars fresh)))
     = [(ByDriver, 0%nat, true); (BySolver, 0%nat, false)].
Proof. split; vm_compute; reflexivity. Qed.

(** The complex truss is kinematically stable. *)
Lemma prism_stable :
  kinematically_stable Prism.layout Prism.nodes Prism.all_bars.
Proof.
  intros u Hb Hs.
  assert (B : forall b, (b < 9)%nat -> keeps_length Prism.layout u b).
  { intros b Hlt. apply Hb. unfold Prism.all_bars.
    do 9 (destruct b as [|b]; [simpl; tauto|]). lia. }
  pose proof (B 0%nat ltac:(lia)) as B0. pose proof (B 1%nat ltac:(lia)) as B1.
  pose proof (B 2%nat ltac:(lia)) as B2. pose proof (B 3%nat ltac:(lia)) as B3.
  pose proof (B 4%nat ltac:(lia)) as B4. pose proof (B 5%nat ltac:(lia)) as B5.
  pose proof (B 6%nat ltac:(lia)) as B6. pose proof (B 7%nat ltac:(lia)) as B7.
  pose proof (B 8%nat ltac:(lia)) as B8.
  destruct (Hs _ (or_introl eq_refl)) as (P0 & _ & _).
  destruct (Hs _ (or_intror (or_introl eq_refl))) as (_ & _ & R1).
  specialize (P0 eq_refl). specialize (R1 eq_refl). destruct P0 as [P0x P0y].
  clear B Hb Hs.
  unfold keeps_length, dot, vsub in *. simpl in *.
  assert (Z : (fst (u 0%nat) == 0 /\ snd (u 0%nat) == 0)
              /\ (fst (u 1%nat) == 0 /\ snd (u 1%nat) == 0)
              /\ (fst (u 2%nat) == 0 /\ snd (u 2%nat) == 0)
              /\ (fst (u 3%nat) == 0 /\ snd (u 3%nat) == 0)
              /\ (fst (u 4%nat) == 0 /\ snd (u 4%nat) == 0)
              /\ (fst (u 5%nat) == 0 /\ snd (u 5%nat) == 0)).
  { repeat split; lra. }
  intros n Hn. simpl in Hn.
  repeat (destruct Hn as [<-|Hn]; [simpl; tauto|]). destruct Hn.
Qed.

(** C2 as stated fails at the complex truss: it is statically determinate
    and kinematically stable, yet no node is viable, and the driver ends
    with the stalled exit in the first pass, no bar resolved. *)
Lemma complex_truss_stalls :
  statically_determinate Prism.nodes Prism.all_bars
  /\ kinematically_stable Prism.layout Prism.nodes Prism.all_bars
  /\ IterateUsingMethodOfJoints (geom := Prism.geometry)
       Prism.nodes Prism.all_bars fresh
     = Exited StuckExit fresh.
Proof.
  split; [reflexivity|]. split; [exact prism_stable|reflexivity].
Qed.

(** A node with at most two bars is viable as soon as one of them is
    unknown. *)
Lemma few_bars_viable (n : Node) (s : Store) (b : BarId) :
  (length (bars n) <= 2)%nat -> In b (bars n) ->
  is_computed (heap s b) = false -> NodeIsViable n s = true.
Proof.
  intros L Hb Hu. apply NodeIsViable_length.
  assert (Hin : In b (UnknownBars n s)) by (apply UnknownBars_In; auto).
  pose proof (filter_length_le (unknown s) (bars n)) as Le.
  rewrite <- UnknownBars_filter in Le.
  destruct (UnknownBars n s) as [|x [|y [|z l]]]; simpl in *;
    [destruct Hin|now left|now right|lia].
Qed.

(** When both bars of a two-bar node are unknown they are its incidence
    list. *)
Lemma two_unknown_of_two (n : Node) (s : Store) (a b u0 u1 : BarId) :
  bars n = [a; b] -> UnknownBars n s = [u0; u1] -> u0 = a /\ u1 = b.
Proof.
  intros B U. rewrite UnknownBars_filter, B in U. simpl in U.
  destruct (unknown s a), (unknown s b); inversion U; auto.
Qed.

(** C2, amended, at the triangle of the specification: every node has two
    bars, so an unknown bar always comes with a viable node, and no two bars
    of a node are collinear; the driver converges. *)
Lemma converges_unless_fatal_witness :
  ends_converged Triangle.nodes Triangle.all_bars fresh
    (IterateUsingMethodOfJoints (geom := Triangle.geometry)
       Triangle.nodes Triangle.all_bars fresh).
Proof.
  assert (Nodes : forall n, In n Triangle.nodes ->
                    (n = nth 0 Triangle.nodes OneBar.node0
                     /\ bars n = [0; 2]%nat)
                    \/ (n = nth 1 Triangle.nodes OneBar.node0
                        /\ bars n = [0; 1]%nat)
                    \/ (n = nth 2 Triangle.nodes OneBar.node0
                        /\ bars n = [1; 2]%nat)).
  { intros n Hn.
    change (In n [nth 0 Triangle.nodes OneBar.node0;
                  nth 1 Triangle.nodes OneBar.node0;
                  nth 2 Triangle.nodes OneBar.node0]) in Hn.
    destruct Hn as [<-|[<-|[<-|[]]]]; [left|right; left|right; right];
      split; reflexivity. }
  apply (proj2 (@converges_unless_fatal Triangle.geometry Triangle.nodes
                  Triangle.all_bars fresh
                  ltac:(intros n Hn b Hb;
                        destruct (Nodes n Hn) as [[_ B]|[[_ B]|[_ B]]];
                        rewrite B in Hb; unfold Triangle.all_bars;
                        simpl in *; tauto))).
  - intros s1 _ D. apply DoIhaveAnUnknownMember_true in D.
    destruct D as (n & b & Hn & Hb & Hu). exists n. split; [exact Hn|].
    apply (few_bars_viable n s1 b); auto.
    destruct (Nodes n Hn) as [[_ B]|[[_ B]|[_ B]]]; rewrite B; simpl; lia.
  - intros s1 n u0 u1 _ Hn U.
    destruct (Nodes n Hn) as [[-> B]|[[-> B]|[-> B]]];
      destruct (two_unknown_of_two _ _ B U) as [-> ->];
      vm_compute; reflexivity.
Defined.

(** C7 as stated fails at the comb when the driver is given an empty bar
    list: the sixth pass resolves the last bars, the counter then exceeds
    [0 + 5], and the driver leaves through the bounded exit although every
    bar is resolved. *)
Lemma bounded_exit_with_all_resolved :
  verdict (IterateUsingMethodOfJoints (geom := Comb.geometry)
             Comb.nodes [] fresh)
  = EndsTooManyIterations 6
  /\ DoIhaveAnUnknownMember Comb.nodes
       (the_store (IterateUsingMethodOfJoints (geom := Comb.geometry)
                     Comb.nodes [] fresh)) = false
  /\ forallb
       (fun b => is_computed
          (heap (the_store (IterateUsingMethodOfJoints (geom := Comb.geometry)
                              Comb.nodes [] fresh)) b))
       Comb.all_bars = true.
Proof. split; [|split]; vm_compute; reflexivity. Qed.

(** C7, amended, at the last pass of that run: it starts with the bars of
    node 0 unknown, makes progress, and the counter goes from 5 to 6. *)
Lemma bounded_exit_witness :
  DoIhaveAnUnknownMember Comb.nodes (Comb.after_passes 5) = true
  /\ while_loop (geom := Comb.geometry) 1 Comb.nodes 0 5 (Comb.after_passes 5)
     = TooManyIterations 6
         (store_of (scan (geom := Comb.geometry) Comb.nodes false
                      (Comb.after_passes 5))).
Proof.
  assert (D : DoIhaveAnUnknownMember Comb.nodes (Comb.after_passes 5) = true)
    by (vm_compute; reflexivity).
  split; [exact D|].
  apply (proj1 (@bounded_exit Comb.geometry Comb.nodes 0)
           0%nat 5%nat (Comb.after_passes 5) _ D).
  - apply done_of_value. vm_compute. reflexivity.
  - simpl. lia.
Defined.

(** C3 at node 4 of the comb, in the fresh store: bars 1 and 2 are
    perpendicular and bar 2 is resolved; bars 0 and 1 are collinear and the
    call exits. *)
Lemma two_unknown_form_witness :
  (exists s',
      SumOfForcesInLocalY (geom := Comb.geometry) Comb.node4 [1; 2]%nat fresh
      = Done (- sine_projected_sum (geom := Comb.geometry) Comb.node4 1%nat fresh
              / sin_between (geom := Comb.geometry) Comb.node4 1%nat 2%nat) s'
      /\ heap s' 2%nat
         = mkBar true
             (- sine_projected_sum (geom := Comb.geometry) Comb.node4 1%nat fresh
              / sin_between (geom := Comb.geometry) Comb.node4 1%nat 2%nat))
  /\ SumOfForcesInLocalY (geom := Comb.geometry) Comb.node4 [0; 1]%nat fresh
     = Abort (GeometryExit 4) fresh.
Proof.
  split.
  - destruct (proj2 (proj2 (@two_unknown_form Comb.geometry Comb.node4
                              1%nat 2%nat [] fresh)))
      as (_ & s' & E & H & _).
    + vm_compute. intros H. discriminate H.
    + exists s'. split; [exact E|exact H].
  - apply (proj1 (@two_unknown_form Comb.geometry Comb.node4
                    0%nat 1%nat [] fresh)).
    vm_compute. reflexivity.
Defined.

(** C5 at the one-bar example: a load of 3 downwards is carried by a
    tension of 3 in the bar above the node. *)
Lemma single_unknown_form_witness :
  exists s',
    SumOfForcesInLocalX (geom := OneBar.geometry) OneBar.node0 0%nat fresh
    = Done (- cosine_projected_sum (geom := OneBar.geometry)
                OneBar.node0 0%nat fresh) s'
    /\ heap s' 0%nat
       = mkBar true (- cosine_projected_sum (geom := OneBar.geometry)
                         OneBar.node0 0%nat fresh)
    /\ forall b, b <> 0%nat -> heap s' b = heap fresh b.
Proof.
  apply (@single_unknown_form OneBar.geometry OneBar.node0 0%nat fresh).
  intros b [<-|[]] Hb. now contradiction Hb.
Defined.

(** The load found in the one-bar example. *)
Example one_bar_tension :
  - cosine_projected_sum (geom := OneBar.geometry) OneBar.node0 0%nat fresh
  == 3.
Proof. vm_compute. reflexivity. Qed.

(** Viability is live: scanning the comb from its free end, node 4 is not
    viable in the fresh store, the visit of node 5 makes it viable, and the
    same pass resolves its bars 1 and 2. *)
Example viable_later_in_the_pass :
  NodeIsViable Comb.node4 fresh = false
  /\ NodeIsViable Comb.node4
       (store_of (visit (geom := Comb.geometry) Comb.node5 fresh)) = true
  /\ map (fun b =>
            is_computed
              (heap (store_of (scan (geom := Comb.geometry)
                                 [Comb.node5; Comb.node4] false fresh)) b))
         [0; 1; 2]%nat
     = [true; true; true].
Proof. split; [|split]; vm_compute; reflexivity. Qed.

(** ** Support reactions *)

Section Reactions.

Lemma is_pin_not_roller (n : Node) : is_pin n = true -> is_roller n = false.
Proof.
  unfold is_pin, is_roller, is_roller_no_xdisp, is_roller_no_ydisp.
  intros H. apply String.eqb_eq in H. now rewrite H.
Qed.

(** The branch of the first loop taken at a roller. *)
Lemma roller_branch (n : Node) :
  (if is_pin n then false
   else if is_roller_no_xdisp n then true
   else is_roller_no_ydisp n) = is_roller n.
Proof.
  destruct (is_pin n) eqn:P.
  - now rewrite is_pin_not_roller.
  - unfold is_roller. now destruct (is_roller_no_xdisp n).
Qed.

Lemma find_supports_counts (nodes : list Node) (i : nat) (acc : Supports) :
  n_pins (find_supports nodes i acc)
  = (n_pins acc + length (filter is_pin nodes))%nat
  /\ n_roller (find_supports nodes i acc)
     = (n_roller acc + length (filter is_roller nodes))%nat.
Proof.
  revert i acc. induction nodes as [|n nodes IH]; intros i acc; simpl.
  - split; lia.
  - destruct (IH (S i)
                (if is_pin n then
                   mkSupports (Some i) (roller_node acc) (n_pins acc + 1)
                     (n_roller acc)
                 else if is_roller_no_xdisp n then
                   mkSupports (pin_node acc) (Some i) (n_pins acc)
                     (n_roller acc + 1)
                 else if is_roller_no_ydisp n then
                   mkSupports (pin_node acc) (Some i) (n_pins acc)
                     (n_roller acc + 1)
                 else acc)) as [Hp Hr].
    rewrite Hp, Hr. rewrite <- (roller_branch n).
    destruct (is_pin n); simpl; [split; lia|].
    destruct (is_roller_no_xdisp n); simpl; [split; lia|].
    destruct (is_roller_no_ydisp n); simpl; split; lia.
Qed.

(** With a pin in the list, the loop ends holding the position of one. *)
Lemma find_supports_pin (nodes : list Node) (i : nat) (acc : Supports) :
  filter is_pin nodes <> [] ->
  exists k P, pin_node (find_supports nodes i acc) = Some (i + k)%nat
              /\ nth_error nodes k = Some P /\ is_pin P = true.
Proof.
  revert i acc. induction nodes as [|n nodes IH]; intros i acc H; simpl in *.
  - now contradiction H.
  - destruct (filter is_pin nodes) as [|x l] eqn:F.
    + destruct (is_pin n) eqn:P; [|now contradiction H].
      exists 0%nat, n. split; [|split; auto].
      clear H IH. rewrite Nat.add_0_r.
      assert (G : forall j a, pin_node (find_supports nodes j a) = pin_node a).
      { induction nodes as [|m nodes IHn]; intros j a; simpl; [reflexivity|].
        simpl in F. destruct (is_pin m) eqn:Pm; [discriminate|].
        rewrite (IHn F).
        destruct (is_roller_no_xdisp m), (is_roller_no_ydisp m); reflexivity. }
      now rewrite G.
    + destruct (IH (S i)
                  (if is_pin n then
                     mkSupports (Some i) (roller_node acc) (n_pins acc + 1)
                       (n_roller acc)
                   else if is_roller_no_xdisp n then
                     mkSupports (pin_node acc) (Some i) (n_pins acc)
                       (n_roller acc + 1)
                   else if is_roller_no_ydisp n then
                     mkSupports (pin_node acc) (Some i) (n_pins acc)
                       (n_roller acc + 1)
                   else acc)) as (k & P & E & Hn & HP); [discriminate|].
      exists (S k), P. split; [|split; auto].
      rewrite E. f_equal. lia.
Qed.

Lemma find_supports_roller (nodes : list Node) (i : nat) (acc : Supports) :
  filter is_roller nodes <> [] ->
  exists k R, roller_node (find_supports nodes i acc) = Some (i + k)%nat
              /\ nth_error nodes k = Some R /\ is_roller R = true.
Proof.
  revert i acc. induction nodes as [|n nodes IH]; intros i acc H; simpl in *.
  - now contradiction H.
  - destruct (filter is_roller nodes) as [|x l] eqn:F.
    + destruct (is_roller n) eqn:P; [|now contradiction H].
      exists 0%nat, n. split; [|split; auto].
      clear H IH. rewrite Nat.add_0_r.
      assert (G : forall j a,
                 roller_node (find_supports nodes j a) = roller_node a).
      { induction nodes as [|m nodes IHn]; intros j a; simpl; [reflexivity|].
        simpl in F. destruct (is_roller m) eqn:Pm; [discriminate|].
        rewrite (IHn F). rewrite <- roller_branch in Pm.
        destruct (is_pin m); [reflexivity|].
        destruct (is_roller_no_xdisp m); [discriminate|].
        destruct (is_roller_no_ydisp m); [discriminate|reflexivity]. }
      rewrite G. rewrite <- roller_branch in P.
      destruct (is_pin n); [discriminate|].
      destruct (is_roller_no_xdisp n); [reflexivity|].
      destruct (is_roller_no_ydisp n); [reflexivity|discriminate].
    + destruct (IH (S i)
                  (if is_pin n then
                     mkSupports (Some i) (roller_node acc) (n_pins acc + 1)
                       (n_roller acc)
                   else if is_roller_no_xdisp n then
                     mkSupports (pin_node acc) (Some i) (n_pins acc)
                       (n_roller acc + 1)
                   else if is_roller_no_ydisp n then
                     mkSupports (pin_node acc) (Some i) (n_pins acc)
                       (n_roller acc + 1)
                   else acc)) as (k & P & E & Hn & HP); [discriminate|].
      exists (S k), P. split; [|split; auto].
      rewrite E. f_equal. lia.
Qed.

(** *** Lists of node objects and sums over them *)

Lemma update_at_length (i : nat) (f : Node -> Node) (l : list Node) :
  length (update_at i f l) = length l.
Proof.
  revert i. induction l as [|n l IH]; intros [|i]; simpl; auto.
Qed.

Lemma update_at_nth_same (i : nat) (f : Node -> Node) (l : list Node) n :
  nth_error l i = Some n -> nth_error (update_at i f l) i = Some (f n).
Proof.
  revert i. induction l as [|m l IH]; intros [|i]; simpl; try discriminate.
  - now intros [= ->].
  - apply IH.
Qed.

Lemma update_at_nth_other (i j : nat) (f : Node -> Node) (l : list Node) :
  i <> j -> nth_error (update_at i f l) j = nth_error l j.
Proof.
  revert i j. induction l as [|m l IH]; intros [|i] [|j] H; simpl; auto.
  now contradiction H.
Qed.













End Reactions.



(** The reactions found for the triangle: 6 upwards at each support. *)
Example triangle_reactions :
  map (fun n => (xforce_reaction n, Qred (yforce_reaction n))) Triangle.nodes
  = [(0, 6); (0, 6); (0, 0)].
Proof. vm_compute. reflexivity. Qed.

(** The triangle, end to end: the driver converges in one pass; the bottom
    chord (bar 0) is in tension and the two rafters (bars 1 and 2) are in
    compression. *)
Example triangle_bar_forces :
  verdict (IterateUsingMethodOfJoints (geom := Triangle.geometry)
             Triangle.nodes Triangle.all_bars fresh)
  = EndsConverged 1
  /\ map (fun b =>
            Qred (axial_load
                    (heap (the_store
                             (IterateUsingMethodOfJoints
                                (geom := Triangle.geometry)
                                Triangle.nodes Triangle.all_bars fresh)) b)))
         Triangle.all_bars
     = [9 # 2; - (15 # 2); - (15 # 2)].
Proof. split; vm_compute; reflexivity. Qed.

(** * Further properties of the engine *)

Section Engine.

Context {geom : Geometry}.

Lemma while_loop_counter (nodes : list Node) (n_bars fuel counter : nat)
    (s : Store) :
  (counter <= n_bars + 5)%nat ->
  match while_loop fuel nodes n_bars counter s with
  | Converged p _ => (counter <= p <= n_bars + 5)%nat
  | TooManyIterations p _ => p = (n_bars + 6)%nat
  | _ => True
  end.
Proof.
  revert counter s. induction fuel as [|fuel IH]; intros counter s Hc; simpl.
  - destruct (DoIhaveAnUnknownMember nodes s); auto; lia.
  - destruct (DoIhaveAnUnknownMember nodes s); [|lia].
    destruct (scan nodes false s) as [q s1|e s1]; auto.
    destruct q; simpl; auto.
    destruct (n_bars + 5 <? S counter)%nat eqn:B.
    + apply Nat.ltb_lt in B. lia.
    + apply Nat.ltb_ge in B. specialize (IH (S counter) s1 B).
      destruct (while_loop fuel nodes n_bars (S counter) s1); auto. lia.
Qed.

(** X1.  Whatever the nodes, the bar list and the store, the driver ends.
    A converged run made at most [len(bars) + 5] passes, and the bounded
    exit is taken at pass [len(bars) + 6] exactly. *)
Theorem driver_ends_within_bound (nodes : list Node) (all_bars : list BarId)
    (s : Store) :
  IterateUsingMethodOfJoints nodes all_bars s <> OutOfFuel
  /\ (forall p s', IterateUsingMethodOfJoints nodes all_bars s = Converged p s' ->
                   (p <= length all_bars + 5)%nat)
  /\ (forall p s',
        IterateUsingMethodOfJoints nodes all_bars s = TooManyIterations p s' ->
        p = (length all_bars + 6)%nat).
Proof.
  unfold IterateUsingMethodOfJoints.
  pose proof (@while_loop_counter nodes (length all_bars)
                (length all_bars + 6) 0 s ltac:(lia)) as H.
  split; [apply while_loop_fuel; lia|].
  split; intros p s' E; rewrite E in H; lia.
Qed.

(** An exit inside a pass is the collinearity exit of a node of the list
    which, in the store left behind, has exactly two unknown bars, and they
    are collinear. *)
Lemma scan_abort_at (nodes : list Node) (p : bool) (s s' : Store) (e : Exit) :
  scan nodes p s = Abort e s' ->
  exists n u0 u1, In n nodes /\ e = GeometryExit (idx n)
                  /\ UnknownBars n s' = [u0; u1]
                  /\ collinear n u0 u1 = true.
Proof.
  revert p s. induction nodes as [|n nodes IH]; intros p s; simpl.
  - discriminate.
  - unfold bind. pose proof (visit_spec n s) as R.
    destruct (visit n s) as [q s1|e1 s1].
    + intros H. destruct (IH _ _ H) as (m & u0 & u1 & Hm & He).
      exists m, u0, u1. split; [now right|exact He].
    + intros [= -> ->].
      inversion R as [| | u0 u1 U G|]; subst.
      exists n, u0, u1. split; [now left|]. repeat split; auto.
Qed.

(** X2.  The driver has two fatal exits and no other abnormal end.  The
    stalled exit leaves a store with an unknown bar and no viable node.  The
    geometry exit names a node of the list that, in the store left behind,
    has exactly two unknown bars, which are collinear.  No division by zero
    and no index error escapes the driver. *)
Theorem driver_exits (nodes : list Node) (all_bars : list BarId)
    (s s' : Store) (e : Exit) :
  IterateUsingMethodOfJoints nodes all_bars s = Exited e s' ->
  (e = StuckExit
   /\ DoIhaveAnUnknownMember nodes s' = true
   /\ forall n, In n nodes -> NodeIsViable n s' = false)
  \/ (exists n u0 u1, In n nodes /\ e = GeometryExit (idx n)
                      /\ UnknownBars n s' = [u0; u1]
                      /\ collinear n u0 u1 = true).
Proof.
  unfold IterateUsingMethodOfJoints.
  set (n_bars := length all_bars).
  assert (G : forall fuel counter s0,
             while_loop fuel nodes n_bars counter s0 = Exited e s' ->
             (e = StuckExit
              /\ DoIhaveAnUnknownMember nodes s' = true
              /\ forall n, In n nodes -> NodeIsViable n s' = false)
             \/ (exists n u0 u1, In n nodes /\ e = GeometryExit (idx n)
                                 /\ UnknownBars n s' = [u0; u1]
                                 /\ collinear n u0 u1 = true)).
  { induction fuel as [|fuel IH]; intros counter s0; simpl.
    - destruct (DoIhaveAnUnknownMember nodes s0); intros H; discriminate H.
    - destruct (DoIhaveAnUnknownMember nodes s0) eqn:D;
        [|intros H; discriminate H].
      destruct (scan nodes false s0) as [q s1|e1 s1] eqn:E.
      + destruct q; simpl.
        * destruct (n_bars + 5 <? S counter)%nat;
            [intros H; discriminate H|apply IH].
        * intros [= <- <-]. left.
          destruct (scan_no_progress _ _ _ E) as (_ & -> & V). auto.
      + intros [= -> ->]. right. eapply scan_abort_at; eauto. }
  apply G.
Qed.

(** X3.  A run that returns as converged leaves every bar incident to a
    listed node resolved, whatever the bar list was. *)
Theorem converged_means_resolved (nodes : list Node) (all_bars : list BarId)
    (s s' : Store) (p : nat) :
  IterateUsingMethodOfJoints nodes all_bars s = Converged p s' ->
  forall n b, In n nodes -> In b (bars n) -> is_computed (heap s' b) = true.
Proof.
  intros E n b Hn Hb. unfold IterateUsingMethodOfJoints in E.
  apply while_loop_converged_inv in E.
  destruct (is_computed (heap s' b)) eqn:C; [reflexivity|].
  assert (D : DoIhaveAnUnknownMember nodes s' = true)
    by (apply DoIhaveAnUnknownMember_true; eauto).
  congruence.
Qed.

(** X4.  A second run on the store a converged run left, with any bar
    list, returns at once as converged and leaves that store as it is. *)
Theorem driver_rerun_is_idle (nodes : list Node) (all_bars again : list BarId)
    (s s' : Store) (p : nat) :
  IterateUsingMethodOfJoints nodes all_bars s = Converged p s' ->
  IterateUsingMethodOfJoints nodes again s' = Converged 0 s'.
Proof.
  intros E. unfold IterateUsingMethodOfJoints in *.
  apply while_loop_converged_inv in E. now apply while_loop_converged.
Qed.

Lemma visit_frame (n : Node) (s : Store) (b : BarId) :
  ~ In b (bars n) -> heap (store_of (visit n s)) b = heap s b.
Proof.
  intros Hb.
  destruct (visit_spec n s)
    as [V | u0 v s1 s2 U Ev H1 H2 | u0 u1 U G
        | u0 u1 v1 v0 s1 s2 s3 s4 U G E1 H1 H2 E0 H3 H4]; simpl; auto.
  - destruct (UnknownBars_head_unknown _ _ U) as [Hin _].
    assert (b <> u0) by (intros ->; contradiction).
    now rewrite (settled_other H2), (settled_other H1).
  - destruct (UnknownBars_head_unknown _ _ U) as [Hin0 _].
    destruct (UnknownBars_second_unknown _ _ U) as [Hin1 _].
    assert (b <> u0) by (intros ->; contradiction).
    assert (b <> u1) by (intros ->; contradiction).
    now rewrite (settled_other H4), (settled_other H3),
      (settled_other H2), (settled_other H1).
Qed.

Lemma scan_frame (nodes : list Node) (p : bool) (s : Store) (b : BarId) :
  (forall n, In n nodes -> ~ In b (bars n)) ->
  heap (store_of (scan nodes p s)) b = heap s b.
Proof.
  revert p s. induction nodes as [|n nodes IH]; intros p s H; simpl.
  - reflexivity.
  - unfold bind. pose proof (visit_frame n s b (H n (or_introl eq_refl))) as F.
    destruct (visit n s) as [q s1|e s1]; simpl in F; [|exact F].
    rewrite IH; [exact F|]. intros m Hm. apply H. now right.
Qed.

(** X5.  The driver writes only bars that are in the incidence list of a
    node it was given: any other bar is, at the end of the run, exactly as
    it was, however the run ends. *)
Theorem driver_touches_incident_bars_only (nodes : list Node)
    (all_bars : list BarId) (s s' : Store) (b : BarId) :
  final_store (IterateUsingMethodOfJoints nodes all_bars s) = Some s' ->
  (forall n, In n nodes -> ~ In b (bars n)) ->
  heap s' b = heap s b.
Proof.
  intros E Hb. revert E. unfold IterateUsingMethodOfJoints.
  apply (while_loop_preserves (fun s1 s2 => heap s2 b = heap s1 b)).
  - reflexivity.
  - intros s1 s2 s3 H12 H23. congruence.
  - intros s0. now apply scan_frame.
Qed.

(** X6.  A visit that reports progress leaves its node with no unknown
    bar, so the node is not viable again. *)
Theorem visit_resolves_node (node : Node) (s s' : Store) :
  visit node s = Done true s' ->
  UnknownBars node s' = [] /\ NodeIsViable node s' = false.
Proof.
  intros E.
  assert (A : forall b, In b (bars node) -> is_computed (heap s' b) = true).
  { intros b Hb.
    pose proof (visit_frozen node s) as F. rewrite E in F. simpl in F.
    destruct (is_computed (heap s b)) eqn:C; [now apply (frozen_flag b F)|].
    assert (Hu : In b (UnknownBars node s)) by (apply UnknownBars_In; auto).
    pose proof (visit_spec node s) as R. rewrite E in R.
    inversion R as [V | u0 v s1 s2 U Ev H1 H2 | u0 u1 U G
                    | u0 u1 v1 v0 s1 s2 s3 s4 U G E1 H1 H2 E0 H3 H4]; subst.
    - rewrite U in Hu. destruct Hu as [<-|[]].
      now rewrite (settled_computed H2).
    - rewrite U in Hu. destruct Hu as [<-|[<-|[]]].
      + now rewrite (settled_computed H4).
      + apply (settled_flag_monotone u1 H4), (settled_flag_monotone u1 H3).
        now rewrite (settled_computed H2). }
  assert (U : UnknownBars node s' = []).
  { destruct (UnknownBars node s') as [|b l] eqn:U; [reflexivity|].
    destruct (UnknownBars_head_unknown _ _ U) as [Hin Hu].
    rewrite (A b Hin) in Hu. discriminate. }
  split; [exact U|]. unfold NodeIsViable. now rewrite U.
Qed.

Lemma other_bars_sum_agree (node : Node) (target : BarId) (v : Vec)
    (s s' : Store) (start : Q) :
  (forall b, b <> target -> heap s' b = heap s b) ->
  other_bars_sum node target v s' start = other_bars_sum node target v s start.
Proof.
  intros H. unfold other_bars_sum. revert start.
  induction (bars node) as [|b l IH]; intros start; simpl; [reflexivity|].
  destruct (Nat.eqb b target) eqn:E; simpl; [apply IH|].
  apply Nat.eqb_neq in E. rewrite (H b E). apply IH.
Qed.

(** X7.  The single-unknown form does not read the bar it solves: run
    again on the same node and bar, it returns the same load and leaves
    every bar as the first run left it. *)
Theorem single_unknown_form_idempotent (node : Node) (target : BarId)
    (s : Store) :
  let first := SumOfForcesInLocalX node target s in
  let second := SumOfForcesInLocalX node target (store_of first) in
  value_of second = value_of first
  /\ forall b, heap (store_of second) b = heap (store_of first) b.
Proof.
  cbv zeta.
  destruct (SumOfForcesInLocalX_run node target s) as (s1 & E1 & H1).
  rewrite E1. cbn [store_of value_of].
  destruct (SumOfForcesInLocalX_run node target s1) as (s2 & E2 & H2).
  rewrite E2. cbn [store_of value_of].
  assert (Same : local_x_sum node target s1 = local_x_sum node target s).
  { unfold local_x_sum. cbv zeta. apply other_bars_sum_agree.
    intros b Hb. apply (settled_other H1 Hb). }
  split; [now rewrite Same|].
  intros b. destruct H1 as [Hh1 _], H2 as [Hh2 _].
  rewrite Hh2, Same. destruct (Nat.eqb b target) eqn:E; [|reflexivity].
  now rewrite Hh1, E.
Qed.

(** X8.  The two-unknown form needs two bars: on a list of fewer it
    raises the index error and leaves the store as it was.  It looks at no
    entry after the second. *)
Theorem two_unknown_form_arity (node : Node) (s : Store) :
  (forall l, (length l < 2)%nat ->
             SumOfForcesInLocalY node l s = Abort IndexError s)
  /\ (forall b0 b1 rest,
        SumOfForcesInLocalY node (b0 :: b1 :: rest) s
        = SumOfForcesInLocalY node [b0; b1] s).
Proof.
  split.
  - intros [|b0 [|b1 l]] H; try reflexivity. simpl in H. lia.
  - intros b0 b1 rest. reflexivity.
Qed.

(** X9.  [DoIhaveAnUnknownMember] answers true exactly when some listed
    node has an incident bar whose flag is off, and false exactly when every
    bar incident to a listed node is resolved; an empty node list gives
    false. *)
Theorem unknown_member_iff (nodes : list Node) (s : Store) :
  (DoIhaveAnUnknownMember nodes s = true <->
   exists node b, In node nodes /\ In b (bars node)
                  /\ is_computed (heap s b) = false)
  /\ (DoIhaveAnUnknownMember nodes s = false <->
      forall node b, In node nodes -> In b (bars node) ->
                     is_computed (heap s b) = true)
  /\ DoIhaveAnUnknownMember [] s = false.
Proof.
  split; [apply DoIhaveAnUnknownMember_true|]. split; [|reflexivity].
  split.
  - intros D node b Hn Hb.
    destruct (is_computed (heap s b)) eqn:C; [reflexivity|].
    assert (DoIhaveAnUnknownMember nodes s = true)
      by (apply DoIhaveAnUnknownMember_true; eauto).
    congruence.
  - intros H. destruct (DoIhaveAnUnknownMember nodes s) eqn:D; [|reflexivity].
    apply DoIhaveAnUnknownMember_true in D.
    destruct D as (node & b & Hn & Hb & Hc).
    rewrite (H node b Hn Hb) in Hc. discriminate.
Qed.

Lemma scan_resolves (nodes : list Node) (p : bool) (s s' : Store) :
  scan nodes p s = Done true s' ->
  p = true
  \/ exists n b, In n nodes /\ In b (bars n)
                 /\ is_computed (heap s b) = false
                 /\ is_computed (heap s' b) = true.
Proof.
  revert p s. induction nodes as [|n nodes IH]; intros p s; simpl.
  - unfold ret. intros [= -> _]. now left.
  - unfold bind. destruct (visit n s) as [q s1|e s1] eqn:E; [|discriminate].
    intros H.
    pose proof (visit_frozen n s) as F1. rewrite E in F1. simpl in F1.
    pose proof (scan_frozen nodes (p || q) s1) as F2. rewrite H in F2.
    simpl in F2.
    destruct (IH _ _ H) as [Hp|(m & b & Hm & Hb & Hu & Hc)].
    + apply orb_true_iff in Hp. destruct Hp as [->| ->]; [now left|].
      right. destruct (visit_progress _ _ E) as (b & Hb & Hu & Hc).
      exists n, b. repeat split; auto.
      now apply (frozen_flag b F2).
    + right. exists m, b. repeat split; auto.
      destruct (is_computed (heap s b)) eqn:C; [|reflexivity].
      rewrite (frozen_flag b F1 C) in Hu. discriminate.
Qed.

(** X10.  A pass that sets [progress_made] resolves at least one bar that
    was unknown when the pass began, and that bar is incident to a listed
    node. *)
Theorem pass_with_progress_resolves (nodes : list Node) (s s' : Store) :
  scan nodes false s = Done true s' ->
  exists n b, In n nodes /\ In b (bars n)
              /\ is_computed (heap s b) = false
              /\ is_computed (heap s' b) = true.
Proof.
  intros H. destruct (scan_resolves _ _ _ H) as [?|?];
    [discriminate|assumption].
Qed.

(** *** Equilibrium after a visit *)

Lemma Qsum_map_ext {A} (F G : A -> Q) (l : list A) :
  (forall a, In a l -> F a == G a) -> Qsum (map F l) == Qsum (map G l).
Proof.
  induction l as [|a l IH]; intros H; simpl; [reflexivity|].
  rewrite (H a (or_introl eq_refl)), IH; [reflexivity|].
  intros b Hb. apply H. now right.
Qed.

(** Taking one entry out of a sum over a list without repetition. *)
Lemma Qsum_take_out (F : BarId -> Q) (u : BarId) (l : list BarId) :
  NoDup l -> In u l ->
  Qsum (map F l)
  == Qsum (map (fun b => if Nat.eqb b u then 0 else F b) l) + F u.
Proof.
  induction l as [|x l IH]; intros ND Hin; [destruct Hin|].
  inversion ND as [|? ? Hx NDl]; subst. simpl.
  destruct Hin as [->|Hin].
  - rewrite Nat.eqb_refl.
    rewrite (Qsum_map_ext (fun b => if Nat.eqb b u then 0 else F b) F l).
    + unfold BarId in *. ring.
    + intros b Hb. destruct (Nat.eqb b u) eqn:E; [|reflexivity].
      apply Nat.eqb_eq in E. subst. contradiction.
  - rewrite (IH NDl Hin).
    destruct (Nat.eqb x u) eqn:E.
    + apply Nat.eqb_eq in E. subst. contradiction.
    + ring.
Qed.

Lemma fold_left_guarded_Qsum {A} (g : A -> bool) (f : A -> Q) (l : list A)
    (start : Q) :
  fold_left (fun acc a => if g a then acc + f a else acc) l start
  == start + Qsum (map (fun a => if g a then f a else 0) l).
Proof.
  revert start. induction l as [|a l IH]; intros start; simpl.
  - ring.
  - rewrite IH. destruct (g a); ring.
Qed.

Lemma local_x_sum_Qsum (node : Node) (target : BarId) (s : Store) :
  local_x_sum node target s
  == GetNetXForce node
     * CosineVectors (BarNodeToVector node target) (1, 0)
     + GetNetYForce node
       * CosineVectors (BarNodeToVector node target) (0, 1)
     + Qsum (map (fun b =>
                    if negb (Nat.eqb b target) && is_computed (heap s b)
                    then axial_load (heap s b)
                         * CosineVectors (BarNodeToVector node target)
                             (BarNodeToVector node b)
                    else 0) (bars node)).
Proof.
  unfold local_x_sum, other_bars_sum. cbv zeta.
  rewrite (fold_left_pointwise _
             (fun acc b =>
                if negb (Nat.eqb b target) && is_computed (heap s b)
                then acc + axial_load (heap s b)
                           * CosineVectors (BarNodeToVector node target)
                               (BarNodeToVector node b)
                else acc)).
  - rewrite fold_left_guarded_Qsum. ring.
  - intros acc b.
    destruct (Nat.eqb b target), (is_computed (heap s b)); reflexivity.
Qed.

Lemma local_y_sum_Qsum (node : Node) (bar_0 : BarId) (s : Store) :
  local_y_sum node bar_0 s
  == GetNetXForce node * SineVectors (BarNodeToVector node bar_0) (1, 0)
     + GetNetYForce node * SineVectors (BarNodeToVector node bar_0) (0, 1)
     + Qsum (map (fun b =>
                    if is_computed (heap s b)
                    then axial_load (heap s b)
                         * SineVectors (BarNodeToVector node bar_0)
                             (BarNodeToVector node b)
                    else 0) (bars node)).
Proof.
  unfold local_y_sum, known_bars_sum. cbv zeta.
  rewrite fold_left_guarded_Qsum. ring.
Qed.

(** Once [target] holds the load the single-unknown form computes in a
    store where every other bar of the node is resolved, the forces along
    [target] balance. *)
Lemma along_balanced (node : Node) (target : BarId) (t s' : Store) :
  NoDup (bars node) -> In target (bars node) ->
  CosineVectors (BarNodeToVector node target) (BarNodeToVector node target)
  == 1 ->
  (forall b, In b (bars node) -> b <> target ->
             is_computed (heap t b) = true) ->
  (forall b, b <> target -> heap s' b = heap t b) ->
  heap s' target = mkBar true (- local_x_sum node target t) ->
  force_along node target s' == 0.
Proof.
  intros ND Hin Cos1 Known Same Load.
  unfold force_along. cbv zeta.
  rewrite (Qsum_take_out _ target ND Hin).
  rewrite Load. simpl axial_load. rewrite Cos1.
  rewrite (local_x_sum_Qsum node target t).
  rewrite (Qsum_map_ext
             (fun b => if Nat.eqb b target then 0
                       else axial_load (heap s' b)
                            * CosineVectors (BarNodeToVector node target)
                                (BarNodeToVector node b))
             (fun b => if negb (Nat.eqb b target) && is_computed (heap t b)
                       then axial_load (heap t b)
                            * CosineVectors (BarNodeToVector node target)
                                (BarNodeToVector node b)
                       else 0)).
  - ring.
  - intros b Hb. destruct (Nat.eqb b target) eqn:E; simpl; [reflexivity|].
    apply Nat.eqb_neq in E. rewrite (Known b Hb E), (Same b E). reflexivity.
Qed.

(** X11.  Equilibrium of the node a visit resolved, in the frame of its
    first unknown bar [u0], for an incidence list without repetition and a
    geometry in which a direction has cosine 1 and sine 0 with itself.
    After the visit the net external force and the loads of all the bars of
    the node balance along [u0]; when the node had two unknown bars they
    balance across [u0] as well. *)
Theorem visit_leaves_node_in_equilibrium (node : Node) (s s' : Store)
    (u0 : BarId) (rest : list BarId) :
  visit node s = Done true s' ->
  UnknownBars node s = u0 :: rest ->
  NoDup (bars node) ->
  CosineVectors (BarNodeToVector node u0) (BarNodeToVector node u0) == 1 ->
  SineVectors (BarNodeToVector node u0) (BarNodeToVector node u0) == 0 ->
  force_along node u0 s' == 0
  /\ (rest <> [] -> force_across node u0 s' == 0).
Proof.
  intros E U0 ND Cos1 Sin0.
  pose proof (visit_spec node s) as R. rewrite E in R.
  destruct (UnknownBars_head_unknown _ _ U0) as [Hin0 Hu0].
  assert (Known : forall b, In b (bars node) -> ~ In b (u0 :: rest) ->
                            is_computed (heap s b) = true).
  { intros b Hb Hn. destruct (is_computed (heap s b)) eqn:C; [reflexivity|].
    exfalso. apply Hn. rewrite <- U0. apply UnknownBars_In. auto. }
  inversion R as [V | u v s1 s2 U Ev H1 H2 | u ua U G
                  | u ua v1 v0 s1 s2 s3 s4 U G E1 H1 H2 E0 H3 H4]; subst;
    rewrite U0 in U; injection U as <- ->.
  - (* one unknown bar *)
    split; [|intros H; now contradiction H].
    apply (@along_balanced node u0 s s' ND Hin0 Cos1).
    + intros b Hb Hne. apply (Known b Hb). intros [->|[]]. now apply Hne.
    + intros b Hne.
      now rewrite (settled_other H2 Hne), (settled_other H1 Hne).
    + apply (settled_computed H2).
  - (* two unknown bars *)
    destruct (UnknownBars_second_unknown _ _ U0) as [Hin1 Hu1].
    assert (Hne : u0 <> ua).
    { pose proof (NoDup_filter (unknown s) ND) as N.
      rewrite <- UnknownBars_filter, U0 in N.
      inversion N as [|? ? Hnin _]; subst. intros ->. apply Hnin. now left. }
    assert (L1 : heap s2 ua
                 = mkBar true (- local_y_sum node u0 s / sin_between node u0 ua)).
    { apply (settled_computed H2). }
    split.
    + apply (@along_balanced node u0 s2 s' ND Hin0 Cos1).
      * intros b Hb Hb0. destruct (Nat.eq_dec b ua) as [->|Hb1].
        -- now rewrite L1.
        -- rewrite (settled_other H2 Hb1), (settled_other H1 Hb1).
           apply (Known b Hb). intros [->|[->|[]]]; auto.
      * intros b Hb0.
        now rewrite (settled_other H4 Hb0), (settled_other H3 Hb0).
      * apply (settled_computed H4).
    + intros _. unfold force_across. cbv zeta.
      assert (Hin1' : In ua (bars node)) by exact Hin1.
      rewrite (Qsum_take_out _ u0 ND Hin0).
      rewrite (Qsum_take_out _ ua ND Hin1').
      assert (Eua : Nat.eqb ua u0 = false)
        by (apply Nat.eqb_neq; intros ->; now apply Hne).
      rewrite Eua.
      assert (L1' : heap s' ua = heap s2 ua)
        by (rewrite (settled_other H4), (settled_other H3); auto).
      rewrite L1', L1, (settled_computed H4). simpl axial_load.
      rewrite Sin0.
      rewrite (Qsum_map_ext
                 (fun b => if Nat.eqb b ua then 0
                           else if Nat.eqb b u0 then 0
                           else axial_load (heap s' b)
                                * SineVectors (BarNodeToVector node u0)
                                    (BarNodeToVector node b))
                 (fun b => if is_computed (heap s b)
                           then axial_load (heap s b)
                                * SineVectors (BarNodeToVector node u0)
                                    (BarNodeToVector node b)
                           else 0)).
      * pose proof (local_y_sum_Qsum node u0 s) as Y.
        unfold collinear in G.
        pose proof (guard_excludes_zero _ G) as NZ.
        assert (NZ' : ~ sin_between node u0 ua == 0).
        { intros Z. apply Qeq_bool_iff in Z. congruence. }
        unfold sin_between in *.
        set (sy := local_y_sum node u0 s) in *.
        set (sn := SineVectors (BarNodeToVector node u0)
                     (BarNodeToVector node ua)) in *.
        transitivity (sy + - sy / sn * sn);
          [rewrite Y; unfold BarId in *; ring|field; exact NZ'].
      * intros b Hb.
        destruct (Nat.eqb b ua) eqn:Ea.
        { apply Nat.eqb_eq in Ea. subst. now rewrite Hu1. }
        destruct (Nat.eqb b u0) eqn:Eb.
        { apply Nat.eqb_eq in Eb. subst. now rewrite Hu0. }
        apply Nat.eqb_neq in Ea. apply Nat.eqb_neq in Eb.
        rewrite (Known b Hb) by (intros [->|[->|[]]]; auto).
        now rewrite (settled_other H4 Eb), (settled_other H3 Eb),
          (settled_other H2 Ea), (settled_other H1 Ea).
Qed.

End Engine.

(** * Further properties of the structure operations *)

Section Determinacy.

Variable ConstraintType : Node -> list Z.

Lemma count_reactions_accepted (nodes : list Node) (acc : nat) :
  forallb (node_accepted ConstraintType) nodes = true ->
  count_reactions ConstraintType nodes acc
  = Passed (acc + list_sum (map (reactions_at ConstraintType) nodes))%nat.
Proof.
  revert acc. induction nodes as [|n nodes IH]; intros acc H; simpl in *.
  - f_equal. lia.
  - apply andb_true_iff in H. destruct H as [Hn H].
    unfold node_accepted in Hn. unfold reactions_at at 1.
    destruct (any (ConstraintType n)); simpl in Hn.
    + apply andb_true_iff in Hn. destruct Hn as [H2 H1].
      apply negb_true_iff in H2, H1. rewrite H2, H1.
      rewrite (IH _ H). f_equal. lia.
    + rewrite (IH _ H). f_equal.
Qed.

Lemma count_reactions_refused (pre : list Node) (n : Node)
    (post : list Node) (acc : nat) :
  forallb (node_accepted ConstraintType) pre = true ->
  node_accepted ConstraintType n = false ->
  count_reactions ConstraintType (pre ++ n :: post) acc
  = Refused (if code_in 2 (ConstraintType n) then MomentReactionExit
             else InvalidConstraintExit).
Proof.
  revert acc. induction pre as [|m pre IH]; intros acc Hpre Hn; simpl in *.
  - unfold node_accepted in Hn.
    destruct (any (ConstraintType n)); simpl in Hn; [|discriminate].
    destruct (code_in 2 (ConstraintType n)); [reflexivity|].
    simpl in Hn. apply negb_false_iff in Hn. now rewrite Hn.
  - apply andb_true_iff in Hpre. destruct Hpre as [Hm Hpre].
    unfold node_accepted in Hm.
    destruct (any (ConstraintType m)); simpl in Hm.
    + apply andb_true_iff in Hm. destruct Hm as [H2 H1].
      apply negb_true_iff in H2, H1. rewrite H2, H1. now apply IH.
    + now apply IH.
Qed.

(** The first node that is not accepted, if there is one. *)
Lemma first_refused (nodes : list Node) :
  forallb (node_accepted ConstraintType) nodes = false ->
  exists pre n post,
    nodes = pre ++ n :: post
    /\ forallb (node_accepted ConstraintType) pre = true
    /\ node_accepted ConstraintType n = false.
Proof.
  induction nodes as [|m nodes IH]; simpl; [discriminate|].
  destruct (node_accepted ConstraintType m) eqn:Hm; simpl.
  - intros H. destruct (IH H) as (pre & n & post & -> & Hpre & Hn).
    exists (m :: pre), n, post. simpl. rewrite Hm. auto.
  - intros _. exists [], m, nodes. auto.
Qed.

(** X12.  [StaticallyDeterminate] returns only [True], and it returns
    exactly when every node with a truthy constraint code has neither code
    [2] nor code [-1] and [b + r = 2j], where [r] adds up the number of
    codes of the nodes that have a truthy one.  A node whose codes are all
    zero adds nothing to [r], however many codes it has. *)
Theorem determinate_iff (nodes : list Node) (all_bars : list BarId)
    (b : bool) :
  StaticallyDeterminate ConstraintType nodes all_bars = Passed b
  <-> b = true
      /\ forallb (node_accepted ConstraintType) nodes = true
      /\ (length all_bars
          + list_sum (map (reactions_at ConstraintType) nodes)
          = 2 * length nodes)%nat.
Proof.
  unfold StaticallyDeterminate. cbv zeta.
  destruct (forallb (node_accepted ConstraintType) nodes) eqn:A.
  - rewrite (count_reactions_accepted nodes 0 A), Nat.add_0_l.
    set (r := list_sum (map (reactions_at ConstraintType) nodes)).
    destruct (length all_bars + r <? 2 * length nodes)%nat eqn:L.
    + apply Nat.ltb_lt in L. split; [discriminate|]. intros (_ & _ & H). lia.
    + apply Nat.ltb_ge in L.
      destruct (2 * length nodes <? length all_bars + r)%nat eqn:G.
      * apply Nat.ltb_lt in G. split; [discriminate|].
        intros (_ & _ & H). lia.
      * apply Nat.ltb_ge in G. split.
        -- intros [= <-]. repeat split. lia.
        -- intros (-> & _). reflexivity.
  - destruct (first_refused nodes A) as (pre & n & post & -> & Hpre & Hn).
    rewrite (count_reactions_refused pre n post 0 Hpre Hn).
    split; [discriminate|]. intros (_ & H & _). discriminate.
Qed.

(** X13.  The two counting exits of [StaticallyDeterminate]: with every
    node accepted, it ends with the unstable exit exactly when
    [b + r < 2j] and with the indeterminate exit exactly when
    [b + r > 2j]. *)
Theorem determinacy_count_exits (nodes : list Node) (all_bars : list BarId) :
  (StaticallyDeterminate ConstraintType nodes all_bars = Refused UnstableExit
   <-> forallb (node_accepted ConstraintType) nodes = true
       /\ (length all_bars
           + list_sum (map (reactions_at ConstraintType) nodes)
           < 2 * length nodes)%nat)
  /\ (StaticallyDeterminate ConstraintType nodes all_bars
      = Refused IndeterminateExit
      <-> forallb (node_accepted ConstraintType) nodes = true
          /\ (2 * length nodes
              < length all_bars
                + list_sum (map (reactions_at ConstraintType) nodes))%nat).
Proof.
  unfold StaticallyDeterminate. cbv zeta.
  destruct (forallb (node_accepted ConstraintType) nodes) eqn:A.
  - rewrite (count_reactions_accepted nodes 0 A), Nat.add_0_l.
    set (r := list_sum (map (reactions_at ConstraintType) nodes)).
    destruct (length all_bars + r <? 2 * length nodes)%nat eqn:L.
    + apply Nat.ltb_lt in L. split; split; auto; try discriminate.
      intros (_ & H). lia.
    + apply Nat.ltb_ge in L.
      destruct (2 * length nodes <? length all_bars + r)%nat eqn:G.
      * apply Nat.ltb_lt in G. split; split; auto; try discriminate.
        intros (_ & H). lia.
      * apply Nat.ltb_ge in G. split; split; try discriminate;
          intros (_ & H); lia.
  - destruct (first_refused nodes A) as (pre & n & post & -> & Hpre & Hn).
    rewrite (count_reactions_refused pre n post 0 Hpre Hn).
    split; split; try (intros (H & _); discriminate);
      destruct (code_in 2 (ConstraintType n)); discriminate.
Qed.

(** X14.  The constraint exits of [StaticallyDeterminate] go by the first
    node, in list order, that has a truthy code together with code [2] or
    code [-1]: the moment exit when it has code [2], even if it has code
    [-1] too, the invalid-constraint exit otherwise.  The nodes after it
    and the bar list are not looked at. *)
Theorem determinacy_first_refused_node (pre : list Node) (n : Node)
    (post : list Node) (all_bars : list BarId) :
  forallb (node_accepted ConstraintType) pre = true ->
  node_accepted ConstraintType n = false ->
  StaticallyDeterminate ConstraintType (pre ++ n :: post) all_bars
  = Refused (if code_in 2 (ConstraintType n) then MomentReactionExit
             else InvalidConstraintExit).
Proof.
  intros Hpre Hn. unfold StaticallyDeterminate. cbv zeta.
  now rewrite (count_reactions_refused pre n post 0 Hpre Hn).
Qed.

End Determinacy.

Section ReactionsOutcomes.

(** In a list with exactly one entry satisfying [f], that entry has one
    position. *)
Lemma filter_one_index {A} (f : A -> bool) (l : list A) (i j : nat) (a b : A) :
  length (filter f l) = 1%nat ->
  nth_error l i = Some a -> f a = true ->
  nth_error l j = Some b -> f b = true ->
  i = j.
Proof.
  revert i j. induction l as [|x l IH]; intros i j H Hi Fa Hj Fb.
  - destruct i; discriminate.
  - simpl in H. destruct (f x) eqn:Fx.
    + assert (N : filter f l = [])
        by (destruct (filter f l); [reflexivity|discriminate]).
      assert (No : forall k c, nth_error l k = Some c -> f c = true -> False).
      { intros k c Hk Fc.
        assert (In c (filter f l))
          by (apply filter_In; split; [eapply nth_error_In; eauto|exact Fc]).
        rewrite N in H0. destruct H0. }
      destruct i as [|i], j as [|j]; simpl in *; auto.
      * exfalso. eapply No; eauto.
      * exfalso. eapply No; eauto.
      * exfalso. eapply No; eauto.
    + destruct i as [|i], j as [|j]; simpl in *.
      * reflexivity.
      * injection Hi as ->. congruence.
      * injection Hj as ->. congruence.
      * f_equal. eapply IH; eauto.
Qed.

Lemma filter_one_value {A} (f : A -> bool) (l : list A) (a b : A) :
  length (filter f l) = 1%nat ->
  In a l -> f a = true -> In b l -> f b = true -> a = b.
Proof.
  intros H Ha Fa Hb Fb.
  destruct (In_nth_error _ _ Ha) as (i & Hi).
  destruct (In_nth_error _ _ Hb) as (j & Hj).
  pose proof (filter_one_index f l i j H Hi Fa Hj Fb) as <-.
  congruence.
Qed.

(** With one pin and one roller, the call either divides by a zero lever
    arm or returns the list with the roller changed once and the pin
    twice. *)
Lemma ComputeReactions_cases (nodes : list Node) :
  length (filter is_pin nodes) = 1%nat ->
  length (filter is_roller nodes) = 1%nat ->
  exists pin_at roller_at P R,
    nth_error nodes pin_at = Some P /\ nth_error nodes roller_at = Some R
    /\ is_pin P = true /\ is_roller R = true /\ pin_at <> roller_at
    /\ ((lever_arm P R == 0
         /\ ComputeReactions nodes = Raised ZeroDivisionError)
        \/ (~ lever_arm P R == 0
            /\ exists r ty tx,
                ComputeReactions nodes
                = Returned
                    (update_at pin_at (fun n => AddReactionXForce n (- tx))
                       (update_at pin_at (fun n => AddReactionYForce n (- ty))
                          (update_at roller_at
                             (if is_roller_no_xdisp R
                              then (fun n => AddReactionXForce n r)
                              else (fun n => AddReactionYForce n r))
                             nodes))))).
Proof.
  intros Hp Hr.
  destruct (find_supports_counts nodes 0 (mkSupports None None 0 0))
    as [Cp Cr].
  simpl in Cp, Cr. rewrite Hp in Cp. rewrite Hr in Cr.
  destruct (find_supports_pin nodes 0 (mkSupports None None 0 0))
    as (pin_at & P & Ep & HP & Pp).
  { intros E. rewrite E in Hp. discriminate. }
  destruct (find_supports_roller nodes 0 (mkSupports None None 0 0))
    as (roller_at & R & Er & HR & Rr).
  { intros E. rewrite E in Hr. discriminate. }
  simpl in Ep, Er.
  assert (Hne : pin_at <> roller_at).
  { intros ->. rewrite HP in HR. injection HR as ->.
    rewrite (is_pin_not_roller _ Pp) in Rr. discriminate. }
  exists pin_at, roller_at, P, R.
  repeat (split; [assumption|]).
  unfold ComputeReactions. cbv zeta.
  rewrite Cp, Cr, Ep, Er, HP, HR. simpl negb. simpl orb. cbv iota.
  unfold lever_arm.
  destruct (location P) as [pin_x pin_y] eqn:LP.
  destruct (location R) as [roller_x roller_y] eqn:LR.
  simpl fst. simpl snd.
  destruct (is_roller_no_xdisp R) eqn:RX.
  - assert (RY : is_roller_no_ydisp R = false).
    { unfold is_roller_no_xdisp, is_roller_no_ydisp in *.
      apply String.eqb_eq in RX. now rewrite RX. }
    rewrite RY. unfold divide.
    destruct (Qeq_bool (pin_y - roller_y) 0) eqn:Z.
    + left. split; [now apply Qeq_bool_iff|reflexivity].
    + right. split.
      * intros H. apply Qeq_bool_iff in H. congruence.
      * eexists _, _, _. reflexivity.
  - assert (RY : is_roller_no_ydisp R = true)
      by (unfold is_roller in Rr; now rewrite RX in Rr).
    rewrite RY. unfold divide.
    destruct (Qeq_bool (roller_x - pin_x) 0) eqn:Z.
    + left. split; [now apply Qeq_bool_iff|reflexivity].
    + right. split.
      * intros H. apply Qeq_bool_iff in H. congruence.
      * eexists _, _, _. reflexivity.
Qed.

Lemma ComputeReactions_bad_counts (nodes : list Node) :
  length (filter is_pin nodes) <> 1%nat
  \/ length (filter is_roller nodes) <> 1%nat ->
  ComputeReactions nodes = Raised ReactionsExit.
Proof.
  intros H.
  destruct (find_supports_counts nodes 0 (mkSupports None None 0 0))
    as [Cp Cr].
  simpl in Cp, Cr. unfold ComputeReactions. cbv zeta. rewrite Cp, Cr.
  destruct H as [H|H]; apply Nat.eqb_neq in H; rewrite H; simpl;
    [reflexivity|].
  now rewrite orb_true_r.
Qed.

(** X15.  [ComputeReactions] ends with its own exit ("a more clever way
    must be found") exactly when the list does not hold one pin and one
    roller; an empty list is such a list. *)
Theorem reactions_exit_iff (nodes : list Node) :
  (ComputeReactions nodes = Raised ReactionsExit
   <-> length (filter is_pin nodes) <> 1%nat
       \/ length (filter is_roller nodes) <> 1%nat)
  /\ ComputeReactions [] = Raised ReactionsExit.
Proof.
  split; [|reflexivity]. split.
  - intros E.
    destruct (Nat.eq_dec (length (filter is_pin nodes)) 1) as [Hp|Hp];
      [|now left].
    destruct (Nat.eq_dec (length (filter is_roller nodes)) 1) as [Hr|Hr];
      [|now right].
    exfalso.
    destruct (ComputeReactions_cases nodes Hp Hr)
      as (pa & ra & P & R & _ & _ & _ & _ & _
          & [(_ & Z)|(_ & r & ty & tx & Ok)]); congruence.
  - apply ComputeReactions_bad_counts.
Qed.

(** X16.  [ComputeReactions] raises the division by zero exactly when the
    list holds one pin and one roller and the roller's lever arm about the
    pin is zero; and besides its own exit it has no other abnormal end. *)
Theorem reactions_zero_division_iff (nodes : list Node) :
  (ComputeReactions nodes = Raised ZeroDivisionError
   <-> length (filter is_pin nodes) = 1%nat
       /\ length (filter is_roller nodes) = 1%nat
       /\ exists P R, In P nodes /\ In R nodes
                      /\ is_pin P = true /\ is_roller R = true
                      /\ lever_arm P R == 0)
  /\ (forall e, ComputeReactions nodes = Raised e ->
                e = ReactionsExit \/ e = ZeroDivisionError).
Proof.
  split; [split|].
  - intros E.
    destruct (Nat.eq_dec (length (filter is_pin nodes)) 1) as [Hp|Hp];
      [|rewrite ComputeReactions_bad_counts in E by (now left);
        discriminate].
    destruct (Nat.eq_dec (length (filter is_roller nodes)) 1) as [Hr|Hr];
      [|rewrite ComputeReactions_bad_counts in E by (now right);
        discriminate].
    split; [exact Hp|]. split; [exact Hr|].
    destruct (ComputeReactions_cases nodes Hp Hr)
      as (pa & ra & P & R & HP & HR & Pp & Rr & _
          & [(Z & _)|(_ & r & ty & tx & Ok)]); [|congruence].
    exists P, R. repeat split; eauto using nth_error_In.
  - intros (Hp & Hr & P & R & InP & InR & Pp & Rr & Z).
    destruct (ComputeReactions_cases nodes Hp Hr)
      as (pa & ra & P' & R' & HP & HR & Pp' & Rr' & _
          & [(_ & E)|(NZ & _)]); [exact E|].
    exfalso. apply NZ.
    rewrite (@filter_one_value Node is_pin nodes P' P Hp
               (nth_error_In _ _ HP) Pp' InP Pp).
    rewrite (@filter_one_value Node is_roller nodes R' R Hr
               (nth_error_In _ _ HR) Rr' InR Rr).
    exact Z.
  - intros e E.
    destruct (Nat.eq_dec (length (filter is_pin nodes)) 1) as [Hp|Hp];
      [|rewrite ComputeReactions_bad_counts in E by (now left);
        injection E as <-; now left].
    destruct (Nat.eq_dec (length (filter is_roller nodes)) 1) as [Hr|Hr];
      [|rewrite ComputeReactions_bad_counts in E by (now right);
        injection E as <-; now left].
    destruct (ComputeReactions_cases nodes Hp Hr)
      as (pa & ra & P & R & _ & _ & _ & _ & _
          & [(_ & Z)|(_ & r & ty & tx & Ok)]); [|congruence].
    rewrite Z in E. injection E as <-. now right.
Qed.

End ReactionsOutcomes.

Section ReactionsFrame.

(** X17.  What [ComputeReactions] changes when it returns: the list keeps
    its length, and every node keeps its index, position, incidence list,
    applied loads and constraint.  A node that is neither the pin nor the
    roller is returned as it was; the roller's reaction is changed only in
    the direction it constrains. *)
Theorem reactions_frame (nodes nodes' : list Node) :
  ComputeReactions nodes = Returned nodes' ->
  length nodes' = length nodes
  /\ forall i n n',
       nth_error nodes i = Some n -> nth_error nodes' i = Some n' ->
       (idx n' = idx n /\ location n' = location n /\ bars n' = bars n
        /\ xforce_external n' = xforce_external n
        /\ yforce_external n' = yforce_external n
        /\ constraint n' = constraint n)
       /\ (is_pin n = false -> is_roller n = false -> n' = n)
       /\ (is_roller_no_xdisp n = true ->
           yforce_reaction n' = yforce_reaction n)
       /\ (is_roller_no_ydisp n = true ->
           xforce_reaction n' = xforce_reaction n).
Proof.
  intros E.
  destruct (Nat.eq_dec (length (filter is_pin nodes)) 1) as [Hp|Hp];
    [|rewrite ComputeReactions_bad_counts in E by (now left); discriminate].
  destruct (Nat.eq_dec (length (filter is_roller nodes)) 1) as [Hr|Hr];
    [|rewrite ComputeReactions_bad_counts in E by (now right); discriminate].
  destruct (ComputeReactions_cases nodes Hp Hr)
    as (pa & ra & P & R & HP & HR & Pp & Rr & Hne
        & [(_ & Z)|(_ & r & ty & tx & Ok)]); [congruence|].
  rewrite Ok in E. injection E as <-.
  split; [now rewrite !update_at_length|].
  intros i n n' Hn Hn'.
  set (fR := if is_roller_no_xdisp R
             then (fun m => AddReactionXForce m r)
             else (fun m => AddReactionYForce m r)) in *.
  destruct (Nat.eq_dec i pa) as [->|Hip].
  - (* the pin *)
    assert (n = P) by congruence. subst n.
    assert (H1 : nth_error (update_at ra fR nodes) pa = Some P)
      by (rewrite update_at_nth_other; auto).
    pose proof (update_at_nth_same pa
                  (fun m => AddReactionYForce m (- ty)) _ H1) as H2.
    pose proof (update_at_nth_same pa
                  (fun m => AddReactionXForce m (- tx)) _ H2) as H3.
    rewrite H3 in Hn'. injection Hn' as <-.
    pose proof (is_pin_not_roller _ Pp) as NR. unfold is_roller in NR.
    apply orb_false_iff in NR. destruct NR as [NX NY].
    repeat split; try reflexivity; intros; congruence.
  - rewrite update_at_nth_other in Hn' by auto.
    rewrite update_at_nth_other in Hn' by auto.
    destruct (Nat.eq_dec i ra) as [->|Hir].
    + (* the roller *)
      assert (n = R) by congruence. subst n.
      rewrite (update_at_nth_same ra fR nodes HR) in Hn'.
      injection Hn' as <-. unfold fR.
      destruct (is_roller_no_xdisp R) eqn:RX.
      * assert (RY : is_roller_no_ydisp R = false).
        { unfold is_roller_no_xdisp, is_roller_no_ydisp in *.
          apply String.eqb_eq in RX. now rewrite RX. }
        repeat split; try reflexivity; intros; congruence.
      * repeat split; try reflexivity; intros; congruence.
    + rewrite update_at_nth_other in Hn' by auto.
      assert (n' = n) by congruence. subst n'.
      repeat split; reflexivity.
Qed.

End ReactionsFrame.

(** * Worked instances of the further properties *)

(** X2 at the node between two collinear bars: the driver stops in the
    first pass with the geometry exit of node 3, the store untouched. *)
Lemma driver_exits_witness :
  (GeometryExit 3 = StuckExit
   /\ DoIhaveAnUnknownMember Straight.nodes fresh = true
   /\ forall n, In n Straight.nodes -> NodeIsViable n fresh = false)
  \/ (exists n u0 u1,
        In n Straight.nodes /\ GeometryExit 3 = GeometryExit (idx n)
        /\ UnknownBars n fresh = [u0; u1]
        /\ @collinear Comb.geometry n u0 u1 = true).
Proof.
  apply (@driver_exits Comb.geometry Straight.nodes Straight.all_bars
           fresh fresh (GeometryExit 3)).
  vm_compute. reflexivity.
Defined.

(** X3 at the one-bar example. *)
Lemma converged_means_resolved_witness :
  is_computed
    (heap (the_store (IterateUsingMethodOfJoints (geom := OneBar.geometry)
                        OneBar.nodes OneBar.all_bars fresh)) 0%nat)
  = true.
Proof.
  apply (@converged_means_resolved OneBar.geometry OneBar.nodes
           OneBar.all_bars fresh _ 1%nat) with (n := OneBar.node0).
  - apply verdict_converged. vm_compute. reflexivity.
  - now left.
  - now left.
Defined.

(** X4 at the one-bar example, the second run with an empty bar list. *)
Lemma driver_rerun_is_idle_witness :
  IterateUsingMethodOfJoints (geom := OneBar.geometry) OneBar.nodes []
    (the_store (IterateUsingMethodOfJoints (geom := OneBar.geometry)
                  OneBar.nodes OneBar.all_bars fresh))
  = Converged 0
      (the_store (IterateUsingMethodOfJoints (geom := OneBar.geometry)
                    OneBar.nodes OneBar.all_bars fresh)).
Proof.
  apply (@driver_rerun_is_idle OneBar.geometry OneBar.nodes OneBar.all_bars
           [] fresh _ 1%nat).
  apply verdict_converged. vm_compute. reflexivity.
Defined.

(** X5 at the one-bar example: bar 7 is in no incidence list. *)
Lemma driver_touches_incident_bars_only_witness :
  heap (the_store (IterateUsingMethodOfJoints (geom := OneBar.geometry)
                     OneBar.nodes OneBar.all_bars fresh)) 7%nat
  = heap fresh 7%nat.
Proof.
  apply (@driver_touches_incident_bars_only OneBar.geometry OneBar.nodes
           OneBar.all_bars fresh).
  - apply final_store_the_store. apply IterateUsingMethodOfJoints_total.
  - intros n [<-|[]] [H|[]]. discriminate H.
Defined.

(** X6 at the one-bar example. *)
Lemma visit_resolves_node_witness :
  UnknownBars OneBar.node0
    (store_of (visit (geom := OneBar.geometry) OneBar.node0 fresh)) = []
  /\ NodeIsViable OneBar.node0
       (store_of (visit (geom := OneBar.geometry) OneBar.node0 fresh)) = false.
Proof.
  apply (@visit_resolves_node OneBar.geometry OneBar.node0 fresh).
  apply done_of_value. vm_compute. reflexivity.
Defined.

(** X10 at the first pass over the comb, which resolves bar 0 at
    node 5. *)
Lemma pass_with_progress_resolves_witness :
  exists n b, In n Comb.nodes /\ In b (bars n)
              /\ is_computed (heap fresh b) = false
              /\ is_computed (heap (Comb.after_passes 1) b) = true.
Proof.
  apply (@pass_with_progress_resolves Comb.geometry Comb.nodes fresh
           (Comb.after_passes 1)).
  apply done_of_value. vm_compute. reflexivity.
Defined.

(** X11 at node 4 of the comb, visited after node 5: its bars 1 and 2 are
    unknown, and after the visit the node is in equilibrium along and across
    bar 1. *)
Lemma visit_leaves_node_in_equilibrium_witness :
  force_along (geom := Comb.geometry) Comb.node4 1%nat
    (store_of (visit (geom := Comb.geometry) Comb.node4
                 (store_of (visit (geom := Comb.geometry) Comb.node5 fresh))))
  == 0
  /\ force_across (geom := Comb.geometry) Comb.node4 1%nat
       (store_of (visit (geom := Comb.geometry) Comb.node4
                    (store_of (visit (geom := Comb.geometry) Comb.node5
                                 fresh))))
     == 0.
Proof.
  destruct (@visit_leaves_node_in_equilibrium Comb.geometry Comb.node4
              (store_of (visit (geom := Comb.geometry) Comb.node5 fresh))
              (store_of (visit (geom := Comb.geometry) Comb.node4
                           (store_of (visit (geom := Comb.geometry)
                                        Comb.node5 fresh))))
              1%nat [2%nat]) as [Along Across].
  - apply done_of_value. vm_compute. reflexivity.
  - vm_compute. reflexivity.
  - simpl. repeat constructor; simpl; intuition discriminate.
  - vm_compute. reflexivity.
  - vm_compute. reflexivity.
  - split; [exact Along|]. apply Across. discriminate.
Defined.

(** X14 at the triangle with the refusing codes: node 0 is accepted, node 1
    holds code 2 and code -1, and the moment exit is taken. *)
Lemma determinacy_first_refused_node_witness :
  StaticallyDeterminate refusing_codes Triangle.unsupported Triangle.all_bars
  = Refused MomentReactionExit.
Proof.
  apply (determinacy_first_refused_node refusing_codes
           [nth 0 Triangle.unsupported OneBar.node0]
           (nth 1 Triangle.unsupported OneBar.node0)
           [nth 2 Triangle.unsupported OneBar.node0]
           Triangle.all_bars); reflexivity.
Defined.

(** X17 at the triangle: the loaded node 2 is returned as it was. *)
Lemma reactions_frame_witness :
  length Triangle.nodes = length Triangle.unsupported
  /\ nth_error Triangle.nodes 2 = nth_error Triangle.unsupported 2.
Proof.
  destruct (@reactions_frame Triangle.unsupported Triangle.nodes) as [L F].
  - vm_compute. reflexivity.
  - split; [exact L|].
    destruct (nth_error Triangle.nodes 2) as [n'|] eqn:E;
      [|vm_compute in E; discriminate E].
    destruct (F 2%nat _ n' eq_refl E) as (_ & Same & _).
    now rewrite (Same eq_refl eq_refl).
Defined.

(** The triangle with the example codes passes the determinacy check:
    three bars, three reactions, three nodes. *)
Example triangle_is_determinate :
  StaticallyDeterminate example_codes Triangle.unsupported Triangle.all_bars
  = Passed true.
Proof. reflexivity. Qed.

(** A sine that is not a number passes the guard of the float embedding:
    the call ends with no exit and resolves the target bar. *)
Lemma nan_sine_passes_guard `{FloatGeometry} (node : FloatNode)
    (bar_0 bar_target : BarId) (rest : list BarId) (h : BarId -> FloatBar) :
  float_SineVectors (float_BarNodeToVector node bar_0)
    (float_BarNodeToVector node bar_target) = PrimFloat.nan ->
  exists value h',
    SumOfForcesInLocalY_float node (bar_0 :: bar_target :: rest) h
    = FloatDone value h'
    /\ float_is_computed (h' bar_target) = true.
Proof.
  intros N. unfold SumOfForcesInLocalY_float. cbn [nth_error]. cbv zeta.
  rewrite N.
  change (PrimFloat.ltb (PrimFloat.abs PrimFloat.nan) 1e-9%float) with false.
  change (PrimFloat.eqb PrimFloat.nan 0%float) with false.
  cbv iota. eexists _, _. split; [reflexivity|].
  cbv beta. now rewrite Nat.eqb_refl.
Qed.

(** C3 as stated fails in machine numbers.  At the heavily loaded corner the
    two bars are perpendicular, so the guard lets the call through; the sum
    of the two projected force components exceeds the largest float, and the
    call stores minus infinity in bar 1, marks it resolved and returns, with
    no exit. *)
Lemma overflow_stores_infinity :
  PrimFloat.ltb 0.99%float
    (float_SineVectors (FloatGeometry := Corner.geometry)
       (Corner.direction 0%nat) (Corner.direction 1%nat)) = true
  /\ match SumOfForcesInLocalY_float (H := Corner.geometry) Corner.node
             [0; 1]%nat Corner.unresolved with
     | FloatDone value h =>
         PrimFloat.eqb value PrimFloat.neg_infinity
         && float_is_computed (h 1%nat)
         && PrimFloat.eqb (float_axial_load (h 1%nat)) PrimFloat.neg_infinity
     | FloatAbort _ _ => false
     end = true.
Proof. split; vm_compute; reflexivity. Qed.
